(** * sync.Map: a shallow embedding of [src/sync/map/map.go]

    The Go type [Map] keeps two views of one table: an immutable
    [readOnly] snapshot that is read without the mutex, and a [dirty]
    map that is only touched while [mu] is held.  Both views map keys to
    pointers to [entry] cells, so a cell reachable from both is one shared
    object.  The embedding keeps that sharing explicit: cells live in a
    heap (a list indexed by address) and both maps store addresses.

    Operations are modelled one call at a time (no interleaving): every
    method is a computation in a state-and-fault monad over the [world]
    (the [Map] struct, the heap of entries, and a trace of the writes and
    lock operations performed so far). *)

From Stdlib Require Import ZArith Lia.
From stdpp Require Import base tactics option list countable strings gmap.

#[local] Open Scope Z_scope.

Module SyncMap.

(** ** Values *)

(** [interface{}]: the nil interface and two families of comparable
    dynamic values, enough to serve both as keys and as stored values. *)
Inductive iface : Type :=
  | INil
  | IInt (n : Z)
  | IStr (s : string).

#[global] Instance iface_eq_dec : EqDecision iface.
Proof. solve_decision. Defined.

Definition iface_enc (i : iface) : unit + (Z + string) :=
  match i with
  | INil => inl tt
  | IInt n => inr (inl n)
  | IStr s => inr (inr s)
  end.

Definition iface_dec (x : unit + (Z + string)) : iface :=
  match x with
  | inl _ => INil
  | inr (inl n) => IInt n
  | inr (inr s) => IStr s
  end.

#[global] Instance iface_countable : Countable iface.
Proof.
  refine (inj_countable' iface_enc iface_dec _).
  intros []; reflexivity.
Defined.

(** Address of an [entry] cell ([*entry]). *)
Abbreviation loc := nat (only parsing).

(** The field [entry.p], an [unsafe.Pointer]: [nil], the sentinel
    [expunged], or the address of a boxed interface value. *)
Inductive pointer : Type :=
  | PNil
  | PExpunged
  | PVal (i : iface).

#[global] Instance pointer_eq_dec : EqDecision pointer.
Proof. solve_decision. Defined.

(** [type readOnly struct { m map[interface{}]*entry; amended bool }].
    The snapshot map is never written, so a nil map and an empty map are
    the same thing here. *)
Record readOnly : Type := mkReadOnly {
  m : gmap iface loc;
  amended : bool
}.

(** [type Map struct { mu; read; dirty; misses }].  [mu] is [true] while
    the mutex is held.  [dirty] is [None] for the nil map: Go reads a nil
    map as empty but panics on assignment into it. *)
Record Map : Type := mkMap {
  mu : bool;
  read : readOnly;
  dirty : option (gmap iface loc);
  misses : Z
}.

(** One event per lock operation and per write to shared memory. *)
Inductive event : Type :=
  | EvLock
  | EvUnlock
  | EvPtr (e : loc) (old new : pointer)
  | EvRead (r : readOnly)
  | EvDirty (d : option (gmap iface loc))
  | EvDirtyPut (k : iface) (e : loc)
  | EvDirtyDel (k : iface)
  | EvMisses (n : Z).

Record world : Type := mkWorld {
  this : Map;
  heap : list pointer;
  trace : list event
}.

(** The zero value of [Map]: "未初始化的Map是空的，并且已经可以被使用". *)
Definition zeroMap : Map :=
  {| mu := false; read := {| m := ∅; amended := false |};
     dirty := None; misses := 0 |}.

Definition init : world :=
  {| this := zeroMap; heap := []; trace := [] |}.

Definition with_this (f : Map → Map) (w : world) : world :=
  {| this := f (this w); heap := heap w; trace := trace w |}.

Definition emit (ev : event) (w : world) : world :=
  {| this := this w; heap := heap w; trace := trace w ++ [ev] |}.

(** ** The monad *)

Inductive fault : Type :=
  | NilMapWrite        (* "assignment to entry in nil map" *)
  | NilDeref           (* dereference of an address outside the heap *)
  | Deadlock           (* Lock on a mutex this caller already holds *)
  | UnlockOfUnlocked   (* "sync: unlock of unlocked mutex" *)
  | Spin.              (* a retry loop used up its attempts *)

Inductive result (A : Type) : Type :=
  | Ok (a : A) (w : world)
  | Fault (f : fault).
Arguments Ok {A} a w.
Arguments Fault {A} f.

Definition M (A : Type) : Type := world → result A.

Definition ret {A} (a : A) : M A := λ w, Ok a w.

Definition bind {A B} (c : M A) (k : A → M B) : M B :=
  λ w, match c w with
       | Ok a w' => k a w'
       | Fault f => Fault f
       end.

Definition raise {A} (f : fault) : M A := λ _, Fault f.

(** The [ok] of a comma-ok lookup. *)
Definition found {A} (o : option A) : bool :=
  match o with Some _ => true | None => false end.

#[global] Instance M_ret : MRet M := @ret.
#[global] Instance M_bind : MBind M := λ A B k c, bind c k.

(** ** [sync.Mutex] and [sync/atomic] *)

Definition Lock : M unit := λ w,
  if mu (this w) then Fault Deadlock
  else Ok tt (emit EvLock (with_this (λ s, mkMap true (read s) (dirty s) (misses s)) w)).

Definition Unlock : M unit := λ w,
  if mu (this w)
  then Ok tt (emit EvUnlock (with_this (λ s, mkMap false (read s) (dirty s) (misses s)) w))
  else Fault UnlockOfUnlocked.

Definition poke (e : loc) (old new : pointer) (w : world) : world :=
  {| this := this w; heap := <[e := new]> (heap w);
     trace := trace w ++ [EvPtr e old new] |}.

(** [atomic.LoadPointer(&e.p)] *)
Definition LoadPointer (e : loc) : M pointer := λ w,
  match heap w !! e with
  | Some p => Ok p w
  | None => Fault NilDeref
  end.

(** [atomic.StorePointer(&e.p, new)] *)
Definition StorePointer (e : loc) (new : pointer) : M unit := λ w,
  match heap w !! e with
  | Some p => Ok tt (poke e p new w)
  | None => Fault NilDeref
  end.

(** [atomic.CompareAndSwapPointer(&e.p, old, new)] *)
Definition CompareAndSwapPointer (e : loc) (old new : pointer) : M bool := λ w,
  match heap w !! e with
  | Some p => if decide (p = old) then Ok true (poke e old new w) else Ok false w
  | None => Fault NilDeref
  end.

(** Go's [int] is 64 bits wide here; arithmetic on it wraps. *)
Definition wrap64 (z : Z) : Z := (z + 2 ^ 63) mod 2 ^ 64 - 2 ^ 63.

Definition maxInt : Z := 2 ^ 63 - 1.

(** ** Accessors for the fields of [Map] *)

(** [m.read.Load().(readOnly)]; the comma-ok form yields the zero
    [readOnly] for a [Map] that was never stored to, which is the value
    [zeroMap] starts with. *)
Definition read_Load : M readOnly := λ w, Ok (read (this w)) w.

(** [m.read.Store(r)] *)
Definition read_Store (r : readOnly) : M unit := λ w,
  Ok tt (emit (EvRead r)
           (with_this (λ s, mkMap (mu s) r (dirty s) (misses s)) w)).

(** [m.dirty] as an r-value. *)
Definition dirty_get : M (option (gmap iface loc)) := λ w, Ok (dirty (this w)) w.

(** [m.dirty = d] *)
Definition dirty_set (d : option (gmap iface loc)) : M unit := λ w,
  Ok tt (emit (EvDirty d)
           (with_this (λ s, mkMap (mu s) (read s) d (misses s)) w)).

(** [e, ok := m.dirty[key]]: a nil map has no keys. *)
Definition dirty_lookup (key : iface) : M (option loc) := λ w,
  Ok (d ← dirty (this w); d !! key) w.

(** [m.dirty[key] = e]: panics on a nil map. *)
Definition dirty_insert (key : iface) (e : loc) : M unit := λ w,
  match dirty (this w) with
  | Some d =>
      Ok tt (emit (EvDirtyPut key e)
               (with_this (λ s, mkMap (mu s) (read s) (Some (<[key := e]> d)) (misses s)) w))
  | None => Fault NilMapWrite
  end.

(** [delete(m.dirty, key)]: a no-op on a nil map. *)
Definition dirty_delete (key : iface) : M unit := λ w,
  match dirty (this w) with
  | Some d =>
      Ok tt (emit (EvDirtyDel key)
               (with_this (λ s, mkMap (mu s) (read s) (Some (delete key d)) (misses s)) w))
  | None => Ok tt w
  end.

(** [len(mp)] as an [int]. *)
Definition len (mp : gmap iface loc) : Z := wrap64 (Z.of_nat (size mp)).

(** [len(m.dirty)]; the length of a nil map is 0. *)
Definition dirty_len : M Z := λ w,
  Ok (match dirty (this w) with Some d => len d | None => 0 end) w.

Definition misses_get : M Z := λ w, Ok (misses (this w)) w.

(** [m.misses = n] *)
Definition misses_set (n : Z) : M unit := λ w,
  Ok tt (emit (EvMisses n)
           (with_this (λ s, mkMap (mu s) (read s) (dirty s) n) w)).

(** ** Methods of [entry] *)

(** [func newEntry(i interface{}) *entry]: a fresh cell whose [p] is the
    address of a box holding [i]; that address is never nil, whatever
    [i] is. *)
Definition newEntry (i : iface) : M loc := λ w,
  Ok (length (heap w))
     {| this := this w; heap := heap w ++ [PVal i]; trace := trace w |}.

(** [func (e *entry) load() (value interface{}, ok bool)] *)
Definition load (e : loc) : M (iface * bool) :=
  p ← LoadPointer e;
  match p with
  | PNil | PExpunged => mret (INil, false)
  | PVal v => mret (v, true)
  end.

(** Number of times a retry loop may go round.  With one call running at
    a time a compare-and-swap on a pointer that was just loaded cannot
    fail, so the first attempt decides; see the [_fuel] lemmas. *)
Definition attempts : nat := 1.

(** [func (e *entry) tryStore(i *interface{}) bool] *)
Fixpoint tryStore_loop (fuel : nat) (e : loc) (i : iface) : M bool :=
  match fuel with
  | O => raise Spin
  | S fuel' =>
      p ← LoadPointer e;
      if decide (p = PExpunged) then mret false
      else
        swapped ← CompareAndSwapPointer e p (PVal i);
        if swapped : bool then mret true
        else tryStore_loop fuel' e i
  end.

Definition tryStore (e : loc) (i : iface) : M bool :=
  tryStore_loop attempts e i.

(** [func (e *entry) unexpungeLocked() (wasExpunged bool)] *)
Definition unexpungeLocked (e : loc) : M bool :=
  CompareAndSwapPointer e PExpunged PNil.

(** [func (e *entry) storeLocked(i *interface{})] *)
Definition storeLocked (e : loc) (i : iface) : M unit :=
  StorePointer e (PVal i).

(** [func (e *entry) tryLoadOrStore(i interface{}) (actual interface{}, loaded, ok bool)] *)
Fixpoint tryLoadOrStore_loop (fuel : nat) (e : loc) (i : iface)
  : M (iface * bool * bool) :=
  match fuel with
  | O => raise Spin
  | S fuel' =>
      swapped ← CompareAndSwapPointer e PNil (PVal i);
      if swapped : bool then mret (i, false, true)
      else
        p ← LoadPointer e;
        match p with
        | PExpunged => mret (INil, false, false)
        | PVal v => mret (v, true, true)
        | PNil => tryLoadOrStore_loop fuel' e i
        end
  end.

Definition tryLoadOrStore (e : loc) (i : iface) : M (iface * bool * bool) :=
  p ← LoadPointer e;
  match p with
  | PExpunged => mret (INil, false, false)
  | PVal v => mret (v, true, true)
  | PNil => tryLoadOrStore_loop attempts e i
  end.

(** [func (e *entry) delete() (hadValue bool)] *)
Fixpoint delete_loop (fuel : nat) (e : loc) : M bool :=
  match fuel with
  | O => raise Spin
  | S fuel' =>
      p ← LoadPointer e;
      match p with
      | PNil | PExpunged => mret false
      | PVal _ =>
          swapped ← CompareAndSwapPointer e p PNil;
          if swapped : bool then mret true
          else delete_loop fuel' e
      end
  end.

Definition entry_delete (e : loc) : M bool := delete_loop attempts e.

(** [func (e *entry) tryExpungeLocked() (isExpunged bool)] *)
Fixpoint tryExpungeLocked_loop (fuel : nat) (e : loc) (p : pointer) : M bool :=
  match p with
  | PNil =>
      match fuel with
      | O => raise Spin
      | S fuel' =>
          swapped ← CompareAndSwapPointer e PNil PExpunged;
          if swapped : bool then mret true
          else
            p' ← LoadPointer e;
            tryExpungeLocked_loop fuel' e p'
      end
  | _ => mret (bool_decide (p = PExpunged))
  end.

Definition tryExpungeLocked (e : loc) : M bool :=
  p ← LoadPointer e;
  tryExpungeLocked_loop attempts e p.

(** ** Methods of [Map] *)

(** [func (m *Map) missLocked()] *)
Definition missLocked : M unit :=
  n ← misses_get;
  misses_set (wrap64 (n + 1));;
  n ← misses_get;
  sz ← dirty_len;
  if bool_decide (n < sz) then mret tt
  else
    d ← dirty_get;
    read_Store {| m := default ∅ d; amended := false |};;
    dirty_set None;;
    misses_set 0.

(** The loop [for k, e := range read.m] of [dirtyLocked].  Go leaves the
    order of a map range unspecified; the model walks [map_to_list]. *)
Fixpoint dirtyLocked_loop (kes : list (iface * loc)) : M unit :=
  match kes with
  | [] => mret tt
  | (k, e) :: rest =>
      isExpunged ← tryExpungeLocked e;
      (if negb isExpunged then dirty_insert k e else mret tt);;
      dirtyLocked_loop rest
  end.

(** [func (m *Map) dirtyLocked()] *)
Definition dirtyLocked : M unit :=
  d ← dirty_get;
  if found d then mret tt
  else
    rd ← read_Load;
    dirty_set (Some ∅);;
    dirtyLocked_loop (map_to_list (m rd)).

(** [func (m *Map) Load(key interface{}) (value interface{}, ok bool)] *)
Definition Load (key : iface) : M (iface * bool) :=
  rd ← read_Load;
  let e := m rd !! key in
  e ← (if negb (found e) && amended rd then
         Lock;;
         rd ← read_Load;
         let e := m rd !! key in
         e ← (if negb (found e) && amended rd then
                e ← dirty_lookup key;
                missLocked;;
                mret e
              else mret e);
         Unlock;;
         mret e
       else mret e);
  match e with
  | None => mret (INil, false)
  | Some e => load e
  end.

(** [func (m *Map) Store(key, value interface{})] *)
Definition Store (key value : iface) : M unit :=
  rd ← read_Load;
  stored ← match m rd !! key with
           | Some e => tryStore e value
           | None => mret false
           end;
  if stored : bool then mret tt
  else
    Lock;;
    rd ← read_Load;
    match m rd !! key with
    | Some e =>
        wasExpunged ← unexpungeLocked e;
        (if wasExpunged : bool then dirty_insert key e else mret tt);;
        storeLocked e value
    | None =>
        de ← dirty_lookup key;
        match de with
        | Some e => storeLocked e value
        | None =>
            (if negb (amended rd) then
               dirtyLocked;;
               read_Store {| m := m rd; amended := true |}
             else mret tt);;
            e ← newEntry value;
            dirty_insert key e
        end
    end;;
    Unlock.

(** [func (m *Map) LoadOrStore(key, value interface{}) (actual interface{}, loaded bool)] *)
Definition LoadOrStore (key value : iface) : M (iface * bool) :=
  rd ← read_Load;
  fast ← match m rd !! key with
         | Some e =>
             '(actual, loaded, ok) ← tryLoadOrStore e value;
             if ok : bool then mret (Some (actual, loaded)) else mret None
         | None => mret None
         end;
  match fast with
  | Some r => mret r
  | None =>
      Lock;;
      rd ← read_Load;
      r ← match m rd !! key with
          | Some e =>
              wasExpunged ← unexpungeLocked e;
              (if wasExpunged : bool then dirty_insert key e else mret tt);;
              '(actual, loaded, _) ← tryLoadOrStore e value;
              mret (actual, loaded)
          | None =>
              de ← dirty_lookup key;
              match de with
              | Some e =>
                  '(actual, loaded, _) ← tryLoadOrStore e value;
                  missLocked;;
                  mret (actual, loaded)
              | None =>
                  (if negb (amended rd) then
                     dirtyLocked;;
                     read_Store {| m := m rd; amended := true |}
                   else mret tt);;
                  e ← newEntry value;
                  dirty_insert key e;;
                  mret (value, false)
              end
          end;
      Unlock;;
      mret r
  end.

(** [func (m *Map) Delete(key interface{})] *)
Definition Delete (key : iface) : M unit :=
  rd ← read_Load;
  let e := m rd !! key in
  e ← (if negb (found e) && amended rd then
         Lock;;
         rd ← read_Load;
         let e := m rd !! key in
         (if negb (found e) && amended rd then dirty_delete key
          else mret tt);;
         Unlock;;
         mret e
       else mret e);
  match e with
  | Some e => entry_delete e;; mret tt
  | None => mret tt
  end.

(** The visitor of [Range], [func(key, value interface{}) bool].  A Go
    closure may update captured variables; they are threaded through as
    an accumulator of type [A]. *)
Definition visitor (A : Type) : Type := A → iface → iface → A * bool.

(** The loop [for k, e := range read.m] of [Range].  Besides the final
    accumulator it returns the calls made to the visitor, in order. *)
Fixpoint range_loop {A} (f : visitor A) (kes : list (iface * loc)) (a : A)
  : M (A * list (iface * iface)) :=
  match kes with
  | [] => mret (a, [])
  | (k, e) :: rest =>
      '(v, ok) ← load e;
      if negb ok then range_loop f rest a
      else
        let '(a', continue) := f a k v in
        if negb continue then mret (a', [(k, v)])
        else
          '(a'', calls) ← range_loop f rest a';
          mret (a'', (k, v) :: calls)
  end.

(** [func (m *Map) Range(f func(key, value interface{}) bool)] *)
Definition Range {A} (f : visitor A) (a : A) : M (A * list (iface * iface)) :=
  rd ← read_Load;
  rd ← (if amended rd then
          Lock;;
          rd ← read_Load;
          rd ← (if amended rd then
                  d ← dirty_get;
                  let rd := {| m := default ∅ d; amended := false |} in
                  read_Store rd;;
                  dirty_set None;;
                  misses_set 0;;
                  mret rd
                else mret rd);
          Unlock;;
          mret rd
        else mret rd);
  range_loop f (map_to_list (m rd)) a.

(** ** Callers *)

(** One call of a public method. *)
Inductive op : Type :=
  | OpLoad (key : iface)
  | OpStore (key value : iface)
  | OpLoadOrStore (key value : iface)
  | OpDelete (key : iface)
  | OpRange {A : Type} (f : visitor A) (a : A).

Definition exec (o : op) : M unit :=
  match o with
  | OpLoad key => Load key;; mret tt
  | OpStore key value => Store key value
  | OpLoadOrStore key value => LoadOrStore key value;; mret tt
  | OpDelete key => Delete key
  | OpRange f a => Range f a;; mret tt
  end.

(** The worlds a program can bring a zero [Map] to by calling its
    methods one after the other. *)
Inductive reachable : world → Prop :=
  | reach_init : reachable init
  | reach_step o w w' : reachable w → exec o w = Ok tt w' → reachable w'.

(** ** Vocabulary of the statements *)

(** The value a pointer field stands for, if any. *)
Definition value_of (p : option pointer) : option iface :=
  match p with
  | Some (PVal v) => Some v
  | _ => None
  end.

(** What the [Map] holds for key [k]: the snapshot's entry when the
    snapshot has the key, else the dirty map's entry when the snapshot is
    amended. *)
Definition contents (w : world) (k : iface) : option iface :=
  match m (read (this w)) !! k with
  | Some e => value_of (heap w !! e)
  | None =>
      if amended (read (this w)) then
        e ← (d ← dirty (this w); d !! k);
        value_of (heap w !! e)
      else None
  end.

(** Key [k] has no value and [Delete k] has nothing left to do. *)
Definition gone (w : world) (k : iface) : Prop :=
  match m (read (this w)) !! k with
  | Some e => value_of (heap w !! e) = None
  | None => ∀ d, dirty (this w) = Some d → d !! k = None
  end.

(** Two worlds with the same [Map] and the same entries; only the trace
    may differ. *)
Definition same_map (w w' : world) : Prop :=
  this w = this w' ∧ heap w = heap w'.

(** How one call may change the snapshot: it leaves it alone (and the
    dirty map stays nil or stays non-nil); or it marks it amended while it
    creates the dirty map; or it replaces it by the dirty map [d], with
    [amended = false], and clears [m.dirty] and [m.misses]. *)
Definition snapshot_step (w w' : world) : Prop :=
  (read (this w') = read (this w)
   ∧ found (dirty (this w')) = found (dirty (this w)))
  ∨ (dirty (this w) = None
     ∧ read (this w') = {| m := m (read (this w)); amended := true |}
     ∧ found (dirty (this w')) = true)
  ∨ (∃ d, dirty (this w) = Some d
          ∧ read (this w') = {| m := d; amended := false |}
          ∧ dirty (this w') = None
          ∧ misses (this w') = 0).

(** A pointer write that takes [expunged] straight to a value. *)
Definition resurrects (ev : event) : Prop :=
  match ev with
  | EvPtr _ PExpunged (PVal _) => True
  | _ => False
  end.

(** The invariant that holds between calls. *)
Record wf (w : world) : Prop := {
  wf_mu : mu (this w) = false;
  wf_amended : amended (read (this w)) = found (dirty (this w));
  wf_read : ∀ k e, m (read (this w)) !! k = Some e → is_Some (heap w !! e);
  wf_dirty : ∀ d k e, dirty (this w) = Some d → d !! k = Some e →
      ∃ p, heap w !! e = Some p ∧ p ≠ PExpunged;
  wf_expunged : ∀ k e, m (read (this w)) !! k = Some e →
      heap w !! e = Some PExpunged → found (dirty (this w)) = true;
  wf_misses : 0 ≤ misses (this w) < maxInt;
  wf_trace : Forall (λ ev, ¬ resurrects ev) (trace w)
}.

(** [len(m.dirty)] for a possibly nil map. *)
Definition dlen (d : option (gmap iface loc)) : Z :=
  match d with Some d => len d | None => 0 end.

(** The effect of one [tryExpungeLocked] on the heap ... *)
Definition expunge (h : list pointer) (e : loc) : list pointer :=
  match h !! e with
  | Some PNil => <[e := PExpunged]> h
  | _ => h
  end.

(** ... and of one round of the loop of [dirtyLocked] on the new dirty map,
    [h] being the heap the loop started from. *)
Definition keep (h : list pointer) (d : gmap iface loc) (ke : iface * loc)
  : gmap iface loc :=
  match h !! ke.2 with
  | Some (PVal _) => <[ke.1 := ke.2]> d
  | _ => d
  end.

Definition materialize (rm : gmap iface loc) (h : list pointer) : gmap iface loc :=
  foldl (keep h) ∅ (map_to_list rm).

Definition expunge_all (rm : gmap iface loc) (h : list pointer) : list pointer :=
  foldl expunge h (map_to_list rm).*2.

(** The pairs [Range] would pass to a visitor that never stops. *)
Definition live (h : list pointer) (kes : list (iface * loc)) : list (iface * iface) :=
  omap (λ ke, v ← value_of (h !! ke.2); Some (ke.1, v)) kes.

(** The visitor's accumulator after the calls [calls]. *)
Definition acc_after {A} (f : visitor A) (a : A) (calls : list (iface * iface)) : A :=
  foldl (λ a c, (f a c.1 c.2).1) a calls.

(** What the visitor answers to the call [c] made after the calls [pre]. *)
Definition verdict {A} (f : visitor A) (a : A) (pre : list (iface * iface))
    (c : iface * iface) : bool :=
  (f (acc_after f a pre) c.1 c.2).2.

(** The entry object of key [k]: the snapshot's, else the dirty map's. *)
Definition entry_of (w : world) (k : iface) : option loc :=
  match m (read (this w)) !! k with
  | Some e => Some e
  | None => d ← dirty (this w); d !! k
  end.

(** Sharing between the two maps: no entry serves two keys, and once the
    dirty map exists it holds every key of the snapshot, with the same
    entry, except those whose entry is expunged. *)
Record coherent (w : world) : Prop := {
  coh_inj : ∀ k1 k2 e, entry_of w k1 = Some e → entry_of w k2 = Some e → k1 = k2;
  coh_superset : ∀ d k e, dirty (this w) = Some d → m (read (this w)) !! k = Some e →
      d !! k = Some e ∨ (d !! k = None ∧ heap w !! e = Some PExpunged)
}.

(** The map as a caller sees it. *)
Definition view (w : world) : gmap iface iface :=
  omap (λ e, value_of (heap w !! e))
    (if amended (read (this w))
     then m (read (this w)) ∪ default ∅ (dirty (this w))
     else m (read (this w))).

(** Every key but [k] holds in [w'] what it held in [w]. *)
Definition agree_except (w w' : world) (k : iface) : Prop :=
  ∀ k', k' ≠ k → contents w' k' = contents w k'.


(** The writes that the code makes only with [m.mu] held: those to
    [m.read], [m.dirty] and [m.misses], and the pointer writes that take an
    entry to or from [expunged]. *)
Definition needs_lock (ev : event) : bool :=
  match ev with
  | EvLock | EvUnlock => false
  | EvPtr _ old new => bool_decide (old = PExpunged) || bool_decide (new = PExpunged)
  | _ => true
  end.

(** One event against the state of the mutex: [None] once the discipline
    is broken (a second [Lock], an [Unlock] of a free mutex, or a guarded
    write without the mutex). *)
Definition step_lock (st : option bool) (ev : event) : option bool :=
  held ← st;
  match ev with
  | EvLock => if held : bool then None else Some true
  | EvUnlock => if held : bool then Some false else None
  | _ => if needs_lock ev && negb held then None else Some held
  end.

(** The state of the mutex after the events [tr], if they keep the
    discipline. *)
Definition discipline (tr : list event) : option bool :=
  foldl step_lock (Some false) tr.

(** The mutex is in state [b] and the history kept the discipline. *)
Definition held_is (b : bool) (w : world) : Prop :=
  mu (this w) = b ∧ discipline (trace w) = Some b.

(** A computation that, started with the mutex in state [b], keeps the
    discipline and ends with the mutex in state [b']. *)
Definition keeps {A} (b b' : bool) (c : M A) : Prop :=
  ∀ w a w', held_is b w → c w = Ok a w' → held_is b' w'.

(** ** Sample worlds *)

(** Running a list of calls from a world; [None] if one of them faults. *)
Fixpoint run (os : list op) (w : world) : option world :=
  match os with
  | [] => Some w
  | o :: os' =>
      match exec o w with
      | Ok _ w' => run os' w'
      | Fault _ => None
      end
  end.

(** The world a program reaches from the zero [Map] with the calls [os]. *)
Definition after (os : list op) : world := default init (run os init).

(** Sample keys. *)
Definition key_a := IStr "a".
Definition key_b := IStr "b".
Definition key_c := IStr "c".

(** The result of a lookup that found entry [e] (or none). *)
Definition loaded (h : list pointer) (e : option loc) : iface * bool :=
  match e ≫= (λ e, value_of (h !! e)) with
  | Some v => (v, true)
  | None => (INil, false)
  end.



(** A reachable world whose snapshot holds a tombstoned entry for ["a"]:
    store, promote by a miss, delete, then add another key so that the
    dirty map is rebuilt. *)
Definition tombstoned_a : world :=
  after [OpStore key_a (IInt 1); OpLoad key_a; OpDelete key_a; OpStore key_b (IInt 2)].


(** Three keys stored and one deleted, all still in the dirty map only. *)
Definition three_dirty : world :=
  after [OpStore key_a (IInt 1); OpStore key_b (IInt 2); OpStore key_c (IInt 3);
         OpDelete key_b].

(** A reachable world whose snapshot holds a live entry for ["a"]. *)
Definition promoted_a : world := after [OpStore key_a (IInt 1); OpLoad key_a].


(** * Proofs *)

(** ** Entry methods *)

Ltac unM := unfold mbind, mret, M_bind, M_ret, bind, ret, raise.

Lemma load_spec e s h tr p (w := mkWorld s h tr) :
  h !! e = Some p →
  load e w = Ok (match p with PVal v => (v, true) | _ => (INil, false) end) w.
Proof.
  intros H. subst w. unfold load, LoadPointer. unM. cbn. rewrite H. by destruct p.
Qed.

Lemma tryStore_loop_spec n e i s h tr p (w := mkWorld s h tr) :
  h !! e = Some p →
  tryStore_loop (S n) e i w =
    if decide (p = PExpunged) then Ok false w else Ok true (mkWorld s (<[e := (PVal i)]> h) (tr ++ [EvPtr e p (PVal i)])).
Proof.
  intros H. subst w. cbn. unfold LoadPointer, CompareAndSwapPointer. unM. cbn. rewrite H.
  destruct (decide (p = PExpunged)) as [->|Hp]; [done|].
  cbn. by rewrite H, decide_True.
Qed.

Lemma tryLoadOrStore_loop_spec n e i s h tr (w := mkWorld s h tr) :
  h !! e = Some PNil →
  tryLoadOrStore_loop (S n) e i w = Ok (i, false, true) (mkWorld s (<[e := (PVal i)]> h) (tr ++ [EvPtr e PNil (PVal i)])).
Proof.
  intros H. subst w. cbn. unfold CompareAndSwapPointer. unM. cbn. by rewrite H.
Qed.

Lemma tryLoadOrStore_spec e i s h tr p (w := mkWorld s h tr) :
  h !! e = Some p →
  tryLoadOrStore e i w =
    match p with
    | PExpunged => Ok (INil, false, false) w
    | PVal v => Ok (v, true, true) w
    | PNil => Ok (i, false, true) (mkWorld s (<[e := (PVal i)]> h) (tr ++ [EvPtr e PNil (PVal i)]))
    end.
Proof.
  intros H. subst w. unfold tryLoadOrStore, LoadPointer. unM. cbn [heap]. rewrite H.
  destruct p; try done. by apply tryLoadOrStore_loop_spec.
Qed.

Lemma delete_loop_spec n e s h tr p (w := mkWorld s h tr) :
  h !! e = Some p →
  delete_loop (S n) e w =
    match p with
    | PVal _ => Ok true (mkWorld s (<[e := PNil]> h) (tr ++ [EvPtr e p PNil]))
    | _ => Ok false w
    end.
Proof.
  intros H. subst w. cbn. unfold LoadPointer, CompareAndSwapPointer. unM. cbn. rewrite H.
  destruct p; try done. cbn. by rewrite H, decide_True.
Qed.

Lemma tryExpungeLocked_loop_spec n e s h tr p (w := mkWorld s h tr) :
  h !! e = Some p →
  tryExpungeLocked_loop (S n) e p w =
    match p with
    | PNil => Ok true (mkWorld s (<[e := PExpunged]> h) (tr ++ [EvPtr e PNil PExpunged]))
    | PExpunged => Ok true w
    | PVal _ => Ok false w
    end.
Proof.
  intros H. subst w. destruct p; try done. cbn. unfold CompareAndSwapPointer. unM. cbn. by rewrite H.
Qed.

Lemma tryExpungeLocked_spec e s h tr p (w := mkWorld s h tr) :
  h !! e = Some p →
  tryExpungeLocked e w =
    match p with
    | PNil => Ok true (mkWorld s (<[e := PExpunged]> h) (tr ++ [EvPtr e PNil PExpunged]))
    | PExpunged => Ok true w
    | PVal _ => Ok false w
    end.
Proof.
  intros H. subst w. unfold tryExpungeLocked, LoadPointer. unM. cbn [heap]. rewrite H.
  by apply tryExpungeLocked_loop_spec.
Qed.

Lemma wrap64_small z : - 2 ^ 63 ≤ z < 2 ^ 63 → wrap64 z = z.
Proof. intros. unfold wrap64. rewrite Z.mod_small; lia. Qed.

Lemma wrap64_range z : - 2 ^ 63 ≤ wrap64 z ≤ maxInt.
Proof. unfold wrap64, maxInt. pose proof (Z.mod_pos_bound (z + 2^63) (2^64)). lia. Qed.

Lemma len_le mp : len mp ≤ maxInt.
Proof. apply wrap64_range. Qed.

Lemma missLocked_spec mu0 rd d ms h tr :
  0 ≤ ms < maxInt →
  missLocked (mkWorld (mkMap mu0 rd d ms) h tr) =
    if bool_decide (ms + 1 < dlen d)
    then Ok tt (mkWorld (mkMap mu0 rd d (ms + 1)) h (tr ++ [EvMisses (ms + 1)]))
    else Ok tt (mkWorld (mkMap mu0 {| m := default ∅ d; amended := false |} None 0) h
                  (tr ++ [EvMisses (ms + 1); EvRead {| m := default ∅ d; amended := false |};
                          EvDirty None; EvMisses 0])).
Proof.
  intros Hms. unfold missLocked, misses_get, misses_set, dirty_len, dirty_get,
    read_Store, dirty_set, emit, with_this. unM. cbn.
  rewrite wrap64_small by (unfold maxInt in *; lia).
  fold (dlen d). case_bool_decide; cbn; rewrite <- ?app_assoc; done.
Qed.

Lemma expunge_length h e : length (expunge h e) = length h.
Proof. unfold expunge. destruct (h !! e) as [[]|]; by rewrite ?length_insert. Qed.

Lemma expunge_lookup h e e' :
  expunge h e !! e' =
    match h !! e' with
    | Some PNil => if decide (e' = e) then Some PExpunged else Some PNil
    | x => x
    end.
Proof.
  unfold expunge. destruct (h !! e) as [[]|] eqn:He.
  - destruct (decide (e' = e)) as [->|Hne].
    + rewrite list_lookup_insert_eq by (by eapply lookup_lt_Some). by rewrite He.
    + rewrite list_lookup_insert_ne by done. by destruct (h !! e') as [[]|].
  - destruct (h !! e') as [[]|] eqn:He'; try done. case_decide; congruence.
  - destruct (h !! e') as [[]|] eqn:He'; try done. case_decide; congruence.
  - destruct (h !! e') as [[]|] eqn:He'; try done. case_decide; congruence.
Qed.

Lemma keep_expunge h e d ke : keep (expunge h e) d ke = keep h d ke.
Proof.
  unfold keep. rewrite expunge_lookup.
  destruct (h !! ke.2) as [[]|]; try done. by case_decide.
Qed.

Lemma foldl_keep_expunge h e kes d :
  foldl (keep (expunge h e)) d kes = foldl (keep h) d kes.
Proof.
  revert d. induction kes as [|ke kes IH]; intros d; [done|].
  cbn. by rewrite keep_expunge, IH.
Qed.

Lemma dirtyLocked_loop_spec kes : ∀ mu0 rd d0 ms h tr,
  (∀ ke, ke ∈ kes → is_Some (h !! ke.2)) →
  ∃ tr', dirtyLocked_loop kes (mkWorld (mkMap mu0 rd (Some d0) ms) h tr) =
    Ok tt (mkWorld (mkMap mu0 rd (Some (foldl (keep h) d0 kes)) ms)
             (foldl expunge h kes.*2) (tr ++ tr'))
    ∧ Forall (λ ev, ¬ resurrects ev) tr'.
Proof.
  induction kes as [|[k e] kes IH]; intros mu0 rd d0 ms h tr Hv.
  - exists []. cbn. by rewrite app_nil_r.
  - destruct (Hv (k, e)) as [p Hp]; [left|]. cbn in Hp.
    cbn [dirtyLocked_loop]. unM.
    rewrite (tryExpungeLocked_spec _ _ _ _ _ Hp).
    assert (Hv' : ∀ ke, ke ∈ kes → is_Some (expunge h e !! ke.2)).
    { intros ke Hke. apply lookup_lt_is_Some. rewrite expunge_length.
      apply lookup_lt_is_Some, Hv. by right. }
    assert (Hkeep : keep h d0 (k, e) =
                    match p with PVal _ => <[k:=e]> d0 | _ => d0 end).
    { unfold keep. cbn. rewrite Hp. by destruct p. }
    assert (Hexp : expunge h e =
                   match p with PNil => <[e:=PExpunged]> h | _ => h end).
    { unfold expunge. rewrite Hp. by destruct p. }
    cbn [foldl fmap list_fmap fst snd]. rewrite Hkeep.
    destruct p; cbn.
    + destruct (IH mu0 rd d0 ms (expunge h e) (tr ++ [EvPtr e PNil PExpunged]) Hv')
        as (tr' & Htr' & Hok).
      rewrite foldl_keep_expunge in Htr'. rewrite Hexp in Htr' at 1. rewrite Htr'.
      exists (EvPtr e PNil PExpunged :: tr'). rewrite <- app_assoc.
      split; [done|]. apply Forall_cons. split; [|done]. by intros [].
    + rewrite Hexp. apply IH. intros ke Hke. apply Hv. by right.
    + unfold dirty_insert, emit, with_this. cbn. rewrite Hexp.
      destruct (IH mu0 rd (<[k:=e]> d0) ms h (tr ++ [EvDirtyPut k e]))
        as (tr' & Htr' & Hok).
      { intros ke Hke. apply Hv. by right. }
      rewrite Htr'. exists (EvDirtyPut k e :: tr'). rewrite <- app_assoc.
      split; [done|]. apply Forall_cons. split; [|done]. by intros [].
Qed.

Lemma foldl_expunge_length es : ∀ h, length (foldl expunge h es) = length h.
Proof.
  induction es as [|e es IH]; intros h; [done|]. cbn. by rewrite IH, expunge_length.
Qed.

Lemma foldl_expunge_lookup es : ∀ h e',
  foldl expunge h es !! e' =
    match h !! e' with
    | Some PNil => if decide (e' ∈ es) then Some PExpunged else Some PNil
    | x => x
    end.
Proof.
  induction es as [|e es IH]; intros h e'; cbn.
  - destruct (h !! e') as [[]|]; try done.
  - rewrite IH, expunge_lookup. destruct (h !! e') as [[]|]; try done.
    destruct (decide (e' = e)) as [->|Hne].
    + rewrite decide_True by left. done.
    + destruct (decide (e' ∈ es)).
      * rewrite decide_True by (by right). done.
      * rewrite decide_False; [done|]. by intros [?|?]%elem_of_cons.
Qed.

Lemma foldl_keep_sound h kes : ∀ d0 k e,
  foldl (keep h) d0 kes !! k = Some e →
  d0 !! k = Some e ∨ ((k, e) ∈ kes ∧ ∃ v, h !! e = Some (PVal v)).
Proof.
  induction kes as [|[k1 e1] kes IH]; intros d0 k e H; cbn in *; [by left|].
  apply IH in H as [H|[H1 H2]].
  - unfold keep in H. cbn in H. destruct (h !! e1) as [[]|] eqn:He1; auto.
    destruct (decide (k = k1)) as [->|Hne].
    + rewrite lookup_insert_eq in H. injection H as <-. right. split; [left|eauto].
    + rewrite lookup_insert_ne in H by done. by left.
  - right. split; [by right|done].
Qed.

Lemma foldl_keep_notin h kes : ∀ d0 k,
  k ∉ kes.*1 → foldl (keep h) d0 kes !! k = d0 !! k.
Proof.
  induction kes as [|[k1 e1] kes IH]; intros d0 k Hk; cbn in *; [done|].
  apply not_elem_of_cons in Hk as [Hne Hk].
  rewrite IH by done. unfold keep. cbn.
  destruct (h !! e1) as [[]|]; try done. by rewrite lookup_insert_ne.
Qed.

Lemma foldl_keep_complete h kes : ∀ d0 k e v,
  NoDup kes.*1 → (k, e) ∈ kes → h !! e = Some (PVal v) →
  foldl (keep h) d0 kes !! k = Some e.
Proof.
  induction kes as [|[k1 e1] kes IH]; intros d0 k e v Hnd Hin Hv; cbn in *.
  - by apply elem_of_nil in Hin.
  - apply NoDup_cons in Hnd as [Hk1 Hnd].
    apply elem_of_cons in Hin as [[= <- <-]|Hin].
    + rewrite foldl_keep_notin by done. unfold keep. cbn. rewrite Hv.
      by rewrite lookup_insert_eq.
    + by eapply IH.
Qed.

Lemma tryStore_spec e i s h tr p :
  h !! e = Some p →
  tryStore e i (mkWorld s h tr) =
    if decide (p = PExpunged) then Ok false (mkWorld s h tr)
    else Ok true (mkWorld s (<[e := PVal i]> h) (tr ++ [EvPtr e p (PVal i)])).
Proof. apply tryStore_loop_spec. Qed.

Lemma entry_delete_spec e s h tr p :
  h !! e = Some p →
  entry_delete e (mkWorld s h tr) =
    match p with
    | PVal _ => Ok true (mkWorld s (<[e := PNil]> h) (tr ++ [EvPtr e p PNil]))
    | _ => Ok false (mkWorld s h tr)
    end.
Proof. apply delete_loop_spec. Qed.

#[local] Arguments tryStore : simpl never.
#[local] Arguments tryLoadOrStore : simpl never.
#[local] Arguments entry_delete : simpl never.
#[local] Arguments tryExpungeLocked : simpl never.
#[local] Arguments load : simpl never.
#[local] Arguments missLocked : simpl never.
#[local] Arguments dirtyLocked : simpl never.

Ltac prims :=
  unfold Lock, Unlock, read_Load, read_Store, dirty_get, dirty_set, dirty_lookup,
    dirty_insert, dirty_delete, dirty_len, misses_get, misses_set, newEntry,
    unexpungeLocked, storeLocked, StorePointer, CompareAndSwapPointer, LoadPointer,
    emit, with_this, poke;
  unM; cbn.

Lemma materialize_lookup rm h k e :
  materialize rm h !! k = Some e ↔ rm !! k = Some e ∧ ∃ v, h !! e = Some (PVal v).
Proof.
  unfold materialize. split.
  - intros H. apply foldl_keep_sound in H as [H|[H1 H2]]; [done|].
    by apply elem_of_map_to_list in H1.
  - intros [H1 [v H2]]. eapply foldl_keep_complete; eauto.
    + apply NoDup_fst_map_to_list.
    + by apply elem_of_map_to_list.
Qed.

Lemma expunge_all_length rm h : length (expunge_all rm h) = length h.
Proof. apply foldl_expunge_length. Qed.

Lemma elem_of_entries (rm : gmap iface loc) e :
  e ∈ (map_to_list rm).*2 ↔ ∃ k, rm !! k = Some e.
Proof.
  rewrite list_elem_of_fmap. split.
  - intros [[k e'] [-> Hin]]. exists k. by apply elem_of_map_to_list.
  - intros [k Hk]. exists (k, e). split; [done|]. by apply elem_of_map_to_list.
Qed.

Lemma expunge_all_lookup rm h e :
  expunge_all rm h !! e =
    match h !! e with
    | Some PNil =>
        if decide (e ∈ (map_to_list rm).*2) then Some PExpunged else Some PNil
    | x => x
    end.
Proof. apply foldl_expunge_lookup. Qed.

Lemma dirtyLocked_spec mu0 rm am ms h tr :
  (∀ k e, rm !! k = Some e → is_Some (h !! e)) →
  ∃ tr', dirtyLocked (mkWorld (mkMap mu0 (mkReadOnly rm am) None ms) h tr) =
    Ok tt (mkWorld (mkMap mu0 (mkReadOnly rm am) (Some (materialize rm h)) ms)
             (expunge_all rm h) (tr ++ EvDirty (Some ∅) :: tr'))
    ∧ Forall (λ ev, ¬ resurrects ev) tr'.
Proof.
  intros Hv. unfold dirtyLocked. prims.
  destruct (dirtyLocked_loop_spec (map_to_list rm) mu0 (mkReadOnly rm am) ∅ ms h
              (tr ++ [EvDirty (Some ∅)])) as (tr' & Htr' & Hok).
  { intros [k e] Hin. apply elem_of_map_to_list in Hin. eauto. }
  rewrite Htr'. exists tr'. by rewrite <- app_assoc.
Qed.

Ltac trace_ok :=
  first
    [ eassumption
    | rewrite ?Forall_app, ?Forall_cons, ?Forall_nil; cbn [resurrects];
      repeat split; try assumption; try (by intros []) ].

Lemma wf_poke s h tr tr' e p new :
  wf (mkWorld s h tr) → h !! e = Some p → new ≠ PExpunged →
  Forall (λ ev, ¬ resurrects ev) tr' →
  wf (mkWorld s (<[e := new]> h) tr').
Proof.
  intros [Hmu Ham Hrd Hd Hex Hms Htr] Hp Hnew Htr'. cbn in *.
  constructor; cbn; try done.
  - intros k e' Hk. apply lookup_lt_is_Some. rewrite length_insert.
    apply lookup_lt_is_Some. eauto.
  - intros d k e' Hds Hk. destruct (Hd _ _ _ Hds Hk) as (p' & Hp' & Hne).
    destruct (decide (e' = e)) as [->|Hee].
    + exists new. split; [|done]. apply list_lookup_insert_eq. by eapply lookup_lt_Some.
    + exists p'. by rewrite list_lookup_insert_ne.
  - intros k e' Hk He'. destruct (decide (e' = e)) as [->|Hee].
    + rewrite list_lookup_insert_eq in He' by (by eapply lookup_lt_Some). congruence.
    + rewrite list_lookup_insert_ne in He' by done. eauto.
Qed.

Lemma wf_unexpunge rd d ms h tr tr' k e v :
  wf (mkWorld (mkMap false rd (Some d) ms) h tr) →
  m rd !! k = Some e → h !! e = Some PExpunged →
  Forall (λ ev, ¬ resurrects ev) tr' →
  wf (mkWorld (mkMap false rd (Some (<[k := e]> d)) ms) (<[e := PVal v]> h) tr').
Proof.
  intros Hwf Hk Hp Htr'.
  destruct (wf_poke _ _ _ tr' _ _ (PVal v) Hwf Hp ltac:(done) Htr').
  constructor; cbn in *; try done.
  intros d' k' e' [= <-] Hk'. destruct (decide (k' = k)) as [->|Hkk].
  - rewrite lookup_insert_eq in Hk'. injection Hk' as <-.
    exists (PVal v). split; [|done]. apply list_lookup_insert_eq. by eapply lookup_lt_Some.
  - rewrite lookup_insert_ne in Hk' by done. eauto.
Qed.

Lemma wf_new_entry rm d ms h tr tr' k v :
  wf (mkWorld (mkMap false (mkReadOnly rm true) (Some d) ms) h tr) →
  Forall (λ ev, ¬ resurrects ev) tr' →
  wf (mkWorld (mkMap false (mkReadOnly rm true) (Some (<[k := length h]> d)) ms)
        (h ++ [PVal v]) tr').
Proof.
  intros [Hmu Ham Hrd Hd Hex Hms Htr] Htr'. cbn in *.
  constructor; cbn; try done.
  - intros k' e' Hk'. apply lookup_lt_is_Some. rewrite length_app.
    apply Hrd, lookup_lt_is_Some in Hk'. lia.
  - intros d' k' e' [= <-] Hk'. destruct (decide (k' = k)) as [->|Hkk].
    + rewrite lookup_insert_eq in Hk'. injection Hk' as <-.
      exists (PVal v). split; [|done]. by rewrite lookup_app_r, Nat.sub_diag.
    + rewrite lookup_insert_ne in Hk' by done.
      destruct (Hd _ _ _ eq_refl Hk') as (p & Hp & Hne).
      exists p. split; [|done]. by apply lookup_app_l_Some.
Qed.

Lemma wf_materialize rm ms h tr tr' :
  wf (mkWorld (mkMap false (mkReadOnly rm false) None ms) h tr) →
  Forall (λ ev, ¬ resurrects ev) tr' →
  wf (mkWorld (mkMap false (mkReadOnly rm true) (Some (materialize rm h)) ms)
        (expunge_all rm h) tr').
Proof.
  intros [Hmu Ham Hrd Hd Hex Hms Htr] Htr'. cbn in *.
  constructor; cbn; try done.
  - intros k e Hk. apply lookup_lt_is_Some. rewrite expunge_all_length.
    apply lookup_lt_is_Some. eauto.
  - intros d' k e [= <-] Hk. apply materialize_lookup in Hk as [Hk [v Hv]].
    exists (PVal v). split; [|done]. by rewrite expunge_all_lookup, Hv.
Qed.

Lemma wf_promote rd d ms h tr tr' :
  wf (mkWorld (mkMap false rd (Some d) ms) h tr) →
  Forall (λ ev, ¬ resurrects ev) tr' →
  wf (mkWorld (mkMap false (mkReadOnly d false) None 0) h tr').
Proof.
  intros [Hmu Ham Hrd Hd Hex Hms Htr] Htr'. cbn in *.
  constructor; cbn; try done.
  - intros k e Hk. destruct (Hd _ _ _ eq_refl Hk) as (p & Hp & _). eauto.
  - intros k e Hk He. destruct (Hd _ _ _ eq_refl Hk) as (p & Hp & ?). congruence.
Qed.

Lemma wf_misses_set mu0 rd d ms ms' h tr tr' :
  wf (mkWorld (mkMap mu0 rd d ms) h tr) → 0 ≤ ms' < maxInt →
  Forall (λ ev, ¬ resurrects ev) tr' →
  wf (mkWorld (mkMap mu0 rd d ms') h tr').
Proof. intros [Hmu Ham Hrd Hd Hex Hms Htr] ? ?. by constructor. Qed.

Lemma wf_dirty_delete rd d ms h tr tr' k :
  wf (mkWorld (mkMap false rd (Some d) ms) h tr) →
  Forall (λ ev, ¬ resurrects ev) tr' →
  wf (mkWorld (mkMap false rd (Some (delete k d)) ms) h tr').
Proof.
  intros [Hmu Ham Hrd Hd Hex Hms Htr] ?. constructor; cbn in *; try done.
  intros d' k' e' [= <-] Hk'. apply lookup_delete_Some in Hk' as [_ Hk']. eauto.
Qed.

Lemma miss_bound ms d : 0 ≤ ms → ms + 1 < dlen d → 0 ≤ ms + 1 < maxInt.
Proof.
  intros ? Hlt. split; [lia|]. destruct d as [d|]; cbn in Hlt; [|lia].
  pose proof (len_le d). lia.
Qed.

Ltac conjs := repeat match goal with |- _ ∧ _ => split end.

Ltac snap := first [ by left | by right; left | by right; right; eexists ].

Lemma Load_spec w k :
  wf w →
  ∃ w', Load k w =
          Ok (match contents w k with Some v => (v, true) | None => (INil, false) end) w'
        ∧ wf w' ∧ snapshot_step w w' ∧ (gone w k → gone w' k).
Proof.
  intros Hwf. pose proof Hwf as [Hmu Ham Hrd Hd Hex Hms Htr].
  destruct w as [[mu0 [rm am] d ms] h tr]; cbn in *. subst mu0.
  unfold Load, contents, gone, snapshot_step. prims.
  destruct (rm !! k) as [e|] eqn:Hk; cbn.
  - destruct (Hrd _ _ Hk) as [p Hp].
    rewrite (load_spec _ _ _ _ _ Hp). rewrite Hp. eexists; split.
    { by destruct p. }
    cbn. rewrite Hk, Hp. conjs; try done; snap.
  - destruct d as [d|]; cbn in *; subst am; cbn; rewrite ?Hk; cbn.
    + rewrite missLocked_spec by done. cbn. case_bool_decide as Hlt; cbn.
      * assert (wf (mkWorld (mkMap false (mkReadOnly rm true) (Some d) (ms + 1)) h
                      ((tr ++ [EvLock; EvMisses (ms + 1)]) ++ [EvUnlock]))) as Hwf'.
        { eapply wf_misses_set; [done|apply (miss_bound _ (Some d)); [lia|done]|trace_ok]. }
        rewrite <- !app_assoc in Hwf'. cbn in Hwf'. rewrite <- !app_assoc. cbn.
        destruct (d !! k) as [e|] eqn:Hdk; cbn.
        -- destruct (Hd _ _ _ eq_refl Hdk) as (p & Hp & Hne).
           rewrite (load_spec _ _ _ _ _ Hp). rewrite Hp. eexists; split.
           { by destruct p. }
           cbn. rewrite Hk. conjs; try done; try snap; try (intros Hg; by rewrite Hg in Hdk).
        -- eexists; split; [done|]. cbn. rewrite Hk. conjs; try done; snap.
      * assert (wf (mkWorld (mkMap false (mkReadOnly d false) None 0) h
                      (tr ++ [EvLock; EvMisses (ms + 1);
                              EvRead {| m := d; amended := false |};
                              EvDirty None; EvMisses 0; EvUnlock]))) as Hwf'.
        { eapply wf_promote; [done|trace_ok]. }
        rewrite <- !app_assoc. cbn.
        destruct (d !! k) as [e|] eqn:Hdk; cbn.
        -- destruct (Hd _ _ _ eq_refl Hdk) as (p & Hp & Hne).
           rewrite (load_spec _ _ _ _ _ Hp). rewrite Hp. eexists; split.
           { by destruct p. }
           cbn. conjs; try done; try snap;
             try (intros Hg; by rewrite Hg in Hdk).
        -- eexists; split; [done|]. cbn. rewrite Hdk. conjs; try done; snap.
    + eexists; split; [done|]. cbn. rewrite Hk. conjs; try done; snap.
Qed.

Lemma Store_spec w k v :
  wf w →
  ∃ w', Store k v w = Ok tt w' ∧ wf w' ∧ snapshot_step w w'
        ∧ contents w' k = Some v.
Proof.
  intros Hwf. pose proof Hwf as [Hmu Ham Hrd Hd Hex Hms Htr].
  destruct w as [[mu0 [rm am] d ms] h tr]; cbn in *. subst mu0.
  unfold Store, contents, snapshot_step. prims.
  destruct (rm !! k) as [e|] eqn:Hk; cbn.
  - destruct (Hrd _ _ Hk) as [p Hp]. rewrite (tryStore_spec _ _ _ _ _ _ Hp).
    assert (e < length h)%nat as Hlt by (by eapply lookup_lt_Some).
    destruct (decide (p = PExpunged)) as [->|Hne]; cbn.
    + rewrite Hk. cbn. rewrite Hp. rewrite decide_True by done. cbn.
      pose proof (Hex _ _ Hk Hp) as Hf. destruct d as [d|]; [|done]. cbn.
      rewrite list_lookup_insert_eq by done. cbn.
      eexists; split; [done|]. rewrite list_insert_insert_eq. cbn.
      rewrite Hk, list_lookup_insert_eq by done. conjs; try done; try snap.
      eapply (wf_unexpunge _ _ _ _ tr); [exact Hwf|exact Hk|exact Hp|trace_ok].
    + eexists; split; [done|]. cbn. rewrite Hk, list_lookup_insert_eq by done.
      conjs; try done; try snap.
      eapply (wf_poke _ _ tr); [exact Hwf|exact Hp|done|trace_ok]. by destruct p; intros ?.
  - rewrite Hk. cbn. destruct d as [d|]; cbn in *; subst am; cbn.
    + destruct (d !! k) as [e|] eqn:Hdk; cbn.
      * destruct (Hd _ _ _ eq_refl Hdk) as (p & Hp & Hne). rewrite Hp. cbn.
        assert (e < length h)%nat as Hlt by (by eapply lookup_lt_Some).
        eexists; split; [done|]. cbn. rewrite Hk, Hdk. cbn.
        rewrite list_lookup_insert_eq by done. conjs; try done; try snap.
        eapply (wf_poke _ _ tr); [exact Hwf|exact Hp|done|trace_ok]. by destruct p; intros ?.
      * eexists; split; [done|]. cbn. rewrite Hk, lookup_insert_eq. cbn.
        rewrite lookup_app_r, Nat.sub_diag by done. conjs; try done; try snap.
        eapply wf_new_entry; [done|trace_ok].
    + destruct (dirtyLocked_spec true rm false ms h (tr ++ [EvLock]) Hrd)
        as (tr' & Htr' & Hok).
      rewrite Htr'. cbn. eexists; split; [done|]. cbn.
      rewrite Hk, lookup_insert_eq. cbn. rewrite expunge_all_length.
      rewrite lookup_app_r by (by rewrite expunge_all_length).
      rewrite expunge_all_length, Nat.sub_diag. conjs; try done; try snap.
      rewrite <- (expunge_all_length rm h).
      eapply wf_new_entry; [|trace_ok]. eapply wf_materialize; [done|trace_ok].
Qed.

Lemma LoadOrStore_spec w k v :
  wf w →
  ∃ w', LoadOrStore k v w =
          Ok (match contents w k with Some a => (a, true) | None => (v, false) end) w'
        ∧ wf w' ∧ snapshot_step w w'
        ∧ contents w' k = Some (default v (contents w k)).
Proof.
  intros Hwf. pose proof Hwf as [Hmu Ham Hrd Hd Hex Hms Htr].
  destruct w as [[mu0 [rm am] d ms] h tr]; cbn in *. subst mu0.
  unfold LoadOrStore, contents, snapshot_step. prims.
  destruct (rm !! k) as [e|] eqn:Hk; cbn.
  - destruct (Hrd _ _ Hk) as [p Hp]. rewrite (tryLoadOrStore_spec _ _ _ _ _ _ Hp).
    assert (e < length h)%nat as Hlt by (by eapply lookup_lt_Some).
    rewrite Hp. destruct p as [| |a]; cbn.
    + eexists; split; [done|]. cbn. rewrite Hk, list_lookup_insert_eq by done.
      conjs; try done; try snap.
      eapply (wf_poke _ _ tr); [exact Hwf|exact Hp|done|trace_ok].
    + rewrite Hk. cbn. rewrite Hp. rewrite decide_True by done. cbn.
      pose proof (Hex _ _ Hk Hp) as Hf. destruct d as [d|]; [|done]. cbn.
      rewrite (tryLoadOrStore_spec _ _ _ _ _ PNil)
        by (by apply list_lookup_insert_eq).
      cbn. eexists; split; [done|]. rewrite list_insert_insert_eq. cbn.
      rewrite Hk, list_lookup_insert_eq by done. conjs; try done; try snap.
      eapply (wf_unexpunge _ _ _ _ tr); [exact Hwf|exact Hk|exact Hp|trace_ok].
    + eexists; split; [done|]. cbn. rewrite Hk, Hp. conjs; try done; snap.
  - rewrite Hk. cbn. destruct d as [d|]; cbn in *; subst am; cbn.
    + destruct (d !! k) as [e|] eqn:Hdk; cbn.
      * destruct (Hd _ _ _ eq_refl Hdk) as (p & Hp & Hne).
        assert (e < length h)%nat as Hlt by (by eapply lookup_lt_Some).
        rewrite (tryLoadOrStore_spec _ _ _ _ _ _ Hp). rewrite Hp.
        destruct p as [| |a]; [|done|]; cbn.
        -- rewrite missLocked_spec by done. cbn.
           pose proof (wf_poke _ _ _ tr _ _ (PVal v) Hwf Hp ltac:(done) Htr) as Hwf'.
           case_bool_decide; cbn; (eexists; split; [done|]); cbn;
             rewrite ?Hk, Hdk; cbn; rewrite list_lookup_insert_eq by done;
             conjs; try done; try snap.
           ++ eapply wf_misses_set; [done|apply (miss_bound _ (Some d)); [lia|done]|trace_ok].
           ++ eapply wf_promote; [done|trace_ok].
        -- rewrite missLocked_spec by done. cbn.
           case_bool_decide; cbn; (eexists; split; [done|]); cbn;
             rewrite ?Hk, Hdk; cbn; rewrite Hp; conjs; try done; try snap.
           ++ eapply wf_misses_set; [done|apply (miss_bound _ (Some d)); [lia|done]|trace_ok].
           ++ eapply wf_promote; [done|trace_ok].
      * eexists; split; [done|]. cbn. rewrite Hk, lookup_insert_eq. cbn.
        rewrite lookup_app_r, Nat.sub_diag by done. conjs; try done; try snap.
        eapply wf_new_entry; [done|trace_ok].
    + destruct (dirtyLocked_spec true rm false ms h (tr ++ [EvLock]) Hrd)
        as (tr' & Htr' & Hok).
      rewrite Htr'. cbn. eexists; split; [done|]. cbn.
      rewrite Hk, lookup_insert_eq. cbn. rewrite expunge_all_length.
      rewrite lookup_app_r by (by rewrite expunge_all_length).
      rewrite expunge_all_length, Nat.sub_diag. conjs; try done; try snap.
      rewrite <- (expunge_all_length rm h).
      eapply wf_new_entry; [|trace_ok]. eapply wf_materialize; [done|trace_ok].
Qed.

Lemma Delete_spec w k :
  wf w →
  ∃ w', Delete k w = Ok tt w' ∧ wf w' ∧ snapshot_step w w' ∧ gone w' k
        ∧ (gone w k → same_map w' w).
Proof.
  intros Hwf. pose proof Hwf as [Hmu Ham Hrd Hd Hex Hms Htr].
  destruct w as [[mu0 [rm am] d ms] h tr]; cbn in *. subst mu0.
  unfold Delete, gone, snapshot_step, same_map. prims.
  destruct (rm !! k) as [e|] eqn:Hk; cbn.
  - destruct (Hrd _ _ Hk) as [p Hp]. rewrite (entry_delete_spec _ _ _ _ _ Hp).
    assert (e < length h)%nat as Hlt by (by eapply lookup_lt_Some).
    rewrite Hp. destruct p as [| |a]; cbn; (eexists; split; [done|]); cbn;
      rewrite Hk, ?list_lookup_insert_eq, ?Hp by done; conjs; try done;
      try snap.
    eapply (wf_poke _ _ tr); [exact Hwf|exact Hp|done|trace_ok].
  - destruct d as [d|]; cbn in *; subst am; cbn; rewrite ?Hk; cbn.
    + eexists; split; [done|]. cbn. rewrite Hk. conjs; try done; try snap.
      * eapply (wf_dirty_delete _ _ _ _ tr); [exact Hwf|trace_ok].
      * by intros ? [= <-]; apply lookup_delete_eq.
      * intros Hg. by rewrite delete_id by auto.
    + eexists; split; [done|]. cbn. rewrite Hk. conjs; try done; snap.
Qed.

Lemma acc_after_cons {A} (f : visitor A) a k v calls :
  acc_after f a ((k, v) :: calls) = acc_after f (f a k v).1 calls.
Proof. done. Qed.

Lemma range_loop_spec {A} (f : visitor A) kes : ∀ a s h tr,
  (∀ ke, ke ∈ kes → is_Some (h !! ke.2)) →
  ∃ calls rest,
    range_loop f kes a (mkWorld s h tr) = Ok (acc_after f a calls, calls) (mkWorld s h tr)
    ∧ live h kes = calls ++ rest
    ∧ (∀ pre c post, calls = pre ++ c :: post → post ≠ [] → verdict f a pre c = true)
    ∧ (rest ≠ [] → ∃ pre c, calls = pre ++ [c] ∧ verdict f a pre c = false).
Proof.
  induction kes as [|[k e] kes IH]; intros a s h tr Hv.
  - exists [], []. cbn. conjs; try done. intros [|??] ??; discriminate.
  - destruct (Hv (k, e)) as [p Hp]; [left|]. cbn in Hp.
    assert (Hv' : ∀ ke, ke ∈ kes → is_Some (h !! ke.2)).
    { intros ke Hke. apply Hv. by right. }
    cbn [range_loop]. unM. rewrite (load_spec _ _ _ _ _ Hp).
    unfold live. cbn [omap list_omap fst snd]. rewrite Hp. fold (live h kes).
    destruct p as [| |v]; cbn; try by apply IH.
    destruct (f a k v) as [a' go] eqn:Hf. destruct go; cbn.
    + destruct (IH a' s h tr Hv') as (calls & rest & Hrun & Hlive & Hstop & Hlast).
      rewrite Hrun. exists ((k, v) :: calls), rest.
      rewrite acc_after_cons, Hf. cbn. conjs; try done.
      * by rewrite Hlive.
      * intros [|c0 pre] c post Heq Hpost; cbn in Heq; injection Heq as <- Heq.
        -- unfold verdict. cbn. by rewrite Hf.
        -- unfold verdict. rewrite acc_after_cons, Hf. by eapply Hstop.
      * intros Hrest. destruct (Hlast Hrest) as (pre & c & -> & Hc).
        exists ((k, v) :: pre), c. split; [done|].
        unfold verdict. rewrite acc_after_cons, Hf. done.
    + exists [(k, v)], (live h kes). cbn. rewrite Hf. cbn. conjs; try done.
      * intros [|c0 [|??]] c post Heq Hpost; cbn in Heq; try discriminate.
        by injection Heq as _ <-.
      * intros _. exists [], (k, v). split; [done|]. unfold verdict. cbn. by rewrite Hf.
Qed.

Lemma Range_spec {A} (f : visitor A) a w :
  wf w →
  ∃ r w', Range f a w = Ok r w' ∧ wf w' ∧ snapshot_step w w'.
Proof.
  intros Hwf. pose proof Hwf as [Hmu Ham Hrd Hd Hex Hms Htr].
  destruct w as [[mu0 [rm am] d ms] h tr]; cbn in *. subst mu0.
  unfold Range, snapshot_step. prims.
  destruct d as [d|]; cbn in *; subst am; cbn.
  - edestruct (range_loop_spec f (map_to_list d) a) as (calls & rest & Hrun & _).
    { intros [k e] Hin. apply elem_of_map_to_list in Hin. cbn.
      destruct (Hd _ _ _ eq_refl Hin) as (p & Hp & _). eauto. }
    rewrite Hrun. do 2 eexists; split; [done|]. cbn. split; [|snap].
    eapply (wf_promote _ _ _ _ tr); [exact Hwf|trace_ok].
  - edestruct (range_loop_spec f (map_to_list rm) a) as (calls & rest & Hrun & _).
    { intros [k e] Hin. apply elem_of_map_to_list in Hin. cbn. eauto. }
    rewrite Hrun. do 2 eexists; split; [done|]. cbn. split; [done|snap].
Qed.

Lemma wf_init : wf init.
Proof. constructor; cbn; try done; try (unfold maxInt; lia). Qed.

Lemma exec_spec o w :
  wf w → ∃ w', exec o w = Ok tt w' ∧ wf w' ∧ snapshot_step w w'.
Proof.
  intros Hwf. destruct o as [k|k v|k v|k|A f a]; cbn; unM.
  - destruct (Load_spec w k Hwf) as (w' & -> & ? & ? & _). eauto.
  - destruct (Store_spec w k v Hwf) as (w' & -> & ? & ? & _). eauto.
  - destruct (LoadOrStore_spec w k v Hwf) as (w' & -> & ? & ? & _). eauto.
  - destruct (Delete_spec w k Hwf) as (w' & -> & ? & ? & _). eauto.
  - destruct (Range_spec f a w Hwf) as (r & w' & -> & ? & ?). eauto.
Qed.

Lemma reachable_wf w : reachable w → wf w.
Proof.
  induction 1 as [|o w w' _ IH Hex]; [apply wf_init|].
  destruct (exec_spec o w IH) as (w'' & Hw'' & ? & _). congruence.
Qed.

(** * The specification, claim by claim *)

Lemma reachable_run os : ∀ w w', reachable w → run os w = Some w' → reachable w'.
Proof.
  induction os as [|o os IH]; intros w w' Hw Hrun; cbn in Hrun.
  - by injection Hrun as <-.
  - destruct (exec o w) as [[] w1|] eqn:Hex; [|done].
    eapply IH; [|done]. by eapply reach_step.
Qed.

Lemma reachable_after os : is_Some (run os init) → reachable (after os).
Proof.
  intros [w Hw]. unfold after. rewrite Hw. cbn.
  eapply reachable_run; [apply reach_init|done].
Qed.

Lemma gone_contents w k : wf w → gone w k → contents w k = None.
Proof.
  intros [_ Ham _ _ _ _ _]. unfold gone, contents.
  destruct (m (read (this w)) !! k); [done|].
  intros Hg. destruct (amended (read (this w))); [|done].
  destruct (dirty (this w)) as [d|]; [|done]. cbn. by rewrite Hg.
Qed.




Lemma Load_miss w k d :
  wf w → m (read (this w)) !! k = None → dirty (this w) = Some d →
  let n := misses (this w) + 1 in
  Load k w =
    Ok (loaded (heap w) (d !! k))
      (if bool_decide (n < len d) then
         {| this := {| mu := false; read := read (this w); dirty := Some d; misses := n |};
            heap := heap w;
            trace := trace w ++ [EvLock; EvMisses n; EvUnlock] |}
       else
         {| this := {| mu := false; read := {| m := d; amended := false |};
                       dirty := None; misses := 0 |};
            heap := heap w;
            trace := trace w ++ [EvLock; EvMisses n;
                                 EvRead {| m := d; amended := false |};
                                 EvDirty None; EvMisses 0; EvUnlock] |}).
Proof.
  intros [Hmu Ham Hrd Hd Hex Hms Htr] Hk Hds.
  destruct w as [[mu0 [rm am] d0 ms] h tr]; cbn in *. subst mu0 d0. cbn in Ham. subst am.
  unfold Load, loaded. prims. rewrite Hk. cbn. rewrite Hk. cbn.
  rewrite missLocked_spec by done. cbn.
  case_bool_decide; cbn; rewrite <- !app_assoc; cbn.
  - destruct (d !! k) as [e|] eqn:Hdk; cbn; [|done].
    destruct (Hd _ _ _ eq_refl Hdk) as (p & Hp & _).
    rewrite (load_spec _ _ _ _ _ Hp), Hp. by destruct p.
  - destruct (d !! k) as [e|] eqn:Hdk; cbn; [|done].
    destruct (Hd _ _ _ eq_refl Hdk) as (p & Hp & _).
    rewrite (load_spec _ _ _ _ _ Hp), Hp. by destruct p.
Qed.

(** C2.  In a reachable world whose snapshot lacks [k] and is amended,
    the dirty map is there and [Load k] takes the mutex, looks [k] up in
    the dirty map, and increments [misses] before it unlocks.  If the new
    count is still below [len(m.dirty)] nothing else changes; otherwise the
    snapshot becomes [{m: dirty, amended: false}], [m.dirty] becomes nil
    and [misses] becomes 0, all between the same [Lock] and [Unlock]. *)
Theorem C2_miss_accounting w k :
  reachable w →
  m (read (this w)) !! k = None →
  amended (read (this w)) = true →
  ∃ d, dirty (this w) = Some d ∧
    let n := misses (this w) + 1 in
    Load k w =
      Ok (loaded (heap w) (d !! k))
        (if bool_decide (n < len d) then
           {| this := {| mu := false; read := read (this w); dirty := Some d;
                         misses := n |};
              heap := heap w;
              trace := trace w ++ [EvLock; EvMisses n; EvUnlock] |}
         else
           {| this := {| mu := false; read := {| m := d; amended := false |};
                         dirty := None; misses := 0 |};
              heap := heap w;
              trace := trace w ++ [EvLock; EvMisses n;
                                   EvRead {| m := d; amended := false |};
                                   EvDirty None; EvMisses 0; EvUnlock] |}).
Proof.
  intros Hw Hk Ham. pose proof (reachable_wf w Hw) as Hwf.
  destruct (dirty (this w)) as [d|] eqn:Hd.
  - exists d. split; [done|]. by apply Load_miss.
  - destruct Hwf as [_ Ham' _ _ _ _ _]. rewrite Hd, Ham in Ham'. done.
Qed.

Lemma C2_witness :
  ∃ d, dirty (this (after [OpStore key_a (IInt 1); OpStore key_b (IInt 2)])) = Some d ∧
    let w := after [OpStore key_a (IInt 1); OpStore key_b (IInt 2)] in
    let n := misses (this w) + 1 in
    Load key_c w =
      Ok (loaded (heap w) (d !! key_c))
        (if bool_decide (n < len d) then
           {| this := {| mu := false; read := read (this w); dirty := Some d;
                         misses := n |};
              heap := heap w;
              trace := trace w ++ [EvLock; EvMisses n; EvUnlock] |}
         else
           {| this := {| mu := false; read := {| m := d; amended := false |};
                         dirty := None; misses := 0 |};
              heap := heap w;
              trace := trace w ++ [EvLock; EvMisses n;
                                   EvRead {| m := d; amended := false |};
                                   EvDirty None; EvMisses 0; EvUnlock] |}).
Proof.
  apply (C2_miss_accounting (after [OpStore key_a (IInt 1); OpStore key_b (IInt 2)]) key_c).
  - apply reachable_after. vm_compute. eauto.
  - vm_compute. reflexivity.
  - vm_compute. reflexivity.
Defined.










(** C6.  In a reachable world, [Delete k; Load k; Delete k; Load k] all
    return, both loads answer [(nil, false)], and the second [Delete]
    changes neither the [Map] nor any entry.  The same holds for a
    [Delete k] that follows a [Delete k] directly. *)
Theorem C6_Delete_idempotent w k :
  reachable w →
  ∃ w1 w2 w3 w4,
    Delete k w = Ok tt w1
    ∧ Load k w1 = Ok (INil, false) w2
    ∧ Delete k w2 = Ok tt w3
    ∧ Load k w3 = Ok (INil, false) w4
    ∧ same_map w3 w2
    ∧ ∃ w1', Delete k w1 = Ok tt w1' ∧ same_map w1' w1.
Proof.
  intros Hw. pose proof (reachable_wf w Hw) as Hwf.
  destruct (Delete_spec w k Hwf) as (w1 & H1 & Hwf1 & _ & Hg1 & _).
  destruct (Load_spec w1 k Hwf1) as (w2 & H2 & Hwf2 & _ & Hg2).
  rewrite (gone_contents w1 k Hwf1 Hg1) in H2. specialize (Hg2 Hg1).
  destruct (Delete_spec w2 k Hwf2) as (w3 & H3 & Hwf3 & _ & Hg3 & Hsame3).
  destruct (Load_spec w3 k Hwf3) as (w4 & H4 & _).
  rewrite (gone_contents w3 k Hwf3 Hg3) in H4.
  destruct (Delete_spec w1 k Hwf1) as (w1' & H1' & _ & _ & _ & Hsame1).
  exists w1, w2, w3, w4. eauto 10.
Qed.

Lemma C6_witness :
  ∃ w1 w2 w3 w4,
    Delete key_a (after [OpStore key_a (IInt 1); OpStore key_b (IInt 2)]) = Ok tt w1
    ∧ Load key_a w1 = Ok (INil, false) w2
    ∧ Delete key_a w2 = Ok tt w3
    ∧ Load key_a w3 = Ok (INil, false) w4
    ∧ same_map w3 w2
    ∧ ∃ w1', Delete key_a w1 = Ok tt w1' ∧ same_map w1' w1.
Proof.
  apply (C6_Delete_idempotent (after [OpStore key_a (IInt 1); OpStore key_b (IInt 2)]) key_a).
  apply reachable_after. vm_compute. eauto.
Defined.



Lemma Range_amended {A} (f : visitor A) a w d :
  wf w → dirty (this w) = Some d →
  ∃ calls rest,
    Range f a w =
      Ok (acc_after f a calls, calls)
        {| this := {| mu := false; read := {| m := d; amended := false |};
                      dirty := None; misses := 0 |};
           heap := heap w;
           trace := trace w ++ [EvLock; EvRead {| m := d; amended := false |};
                                EvDirty None; EvMisses 0; EvUnlock] |}
    ∧ live (heap w) (map_to_list d) = calls ++ rest
    ∧ (∀ pre c post, calls = pre ++ c :: post → post ≠ [] → verdict f a pre c = true)
    ∧ (rest ≠ [] → ∃ pre c, calls = pre ++ [c] ∧ verdict f a pre c = false).
Proof.
  intros [Hmu Ham Hrd Hd Hex Hms Htr] Hds.
  destruct w as [[mu0 [rm am] d0 ms] h tr]; cbn in *. subst mu0 d0. cbn in Ham. subst am.
  unfold Range. prims. rewrite <- !app_assoc. cbn.
  edestruct (range_loop_spec f (map_to_list d) a) as (calls & rest & Hrun & Hrest).
  { intros [k e] Hin. apply elem_of_map_to_list in Hin. cbn.
    destruct (Hd _ _ _ eq_refl Hin) as (p & Hp & _). eauto. }
  exists calls, rest. split; [apply Hrun|apply Hrest].
Qed.



(** C8.  In every reachable world an amended snapshot comes with a
    non-nil dirty map.  Every call from such a world returns, and in the
    world it leaves: a nil dirty map comes with [amended = false]; if the
    call cleared the dirty map [d], the snapshot is now [{m: d, amended:
    false}]; and if the call installed a new snapshot with
    [amended = false], then a dirty map [d] was present before the call,
    the new snapshot is [{m: d, amended: false}], and [m.dirty] and
    [misses] are cleared. *)
Theorem C8_amended_implies_dirty w :
  reachable w →
  (amended (read (this w)) = true → is_Some (dirty (this w)))
  ∧ ∀ o, ∃ w',
      exec o w = Ok tt w'
      ∧ (dirty (this w') = None → amended (read (this w')) = false)
      ∧ (∀ d, dirty (this w) = Some d → dirty (this w') = None →
           read (this w') = {| m := d; amended := false |})
      ∧ (read (this w') ≠ read (this w) → amended (read (this w')) = false →
           ∃ d, dirty (this w) = Some d
                ∧ read (this w') = {| m := d; amended := false |}
                ∧ dirty (this w') = None
                ∧ misses (this w') = 0).
Proof.
  intros Hw. pose proof (reachable_wf w Hw) as Hwf. split.
  - destruct Hwf as [_ Ham _ _ _ _ _]. rewrite Ham.
    by destruct (dirty (this w)); eauto.
  - intros o. destruct (exec_spec o w Hwf) as (w' & Hex & Hwf' & Hstep).
    exists w'. split; [done|]. conjs.
    + destruct Hwf' as [_ Ham' _ _ _ _ _]. intros Hd. by rewrite Ham', Hd.
    + intros d Hd Hd'.
      destruct Hstep as [[_ Hf]|[(Hn & _)|(d0 & Hd0 & Hr & _)]]; [..|congruence].
      * by rewrite Hd, Hd' in Hf.
      * congruence.
    + intros Hne Ham'.
      destruct Hstep as [[Hr _]|[(_ & Hr & _)|(d0 & Hd0 & Hr & Hd' & Hm)]]; [done|..].
      * by rewrite Hr in Ham'.
      * eauto.
Qed.

Lemma C8_witness :
  (amended (read (this three_dirty)) = true → is_Some (dirty (this three_dirty)))
  ∧ ∀ o, ∃ w',
      exec o three_dirty = Ok tt w'
      ∧ (dirty (this w') = None → amended (read (this w')) = false)
      ∧ (∀ d, dirty (this three_dirty) = Some d → dirty (this w') = None →
           read (this w') = {| m := d; amended := false |})
      ∧ (read (this w') ≠ read (this three_dirty) → amended (read (this w')) = false →
           ∃ d, dirty (this three_dirty) = Some d
                ∧ read (this w') = {| m := d; amended := false |}
                ∧ dirty (this w') = None
                ∧ misses (this w') = 0).
Proof.
  apply (C8_amended_implies_dirty three_dirty).
  apply reachable_after. vm_compute. eauto.
Defined.

Lemma Delete_snapshot_key w k e :
  wf w → m (read (this w)) !! k = Some e →
  ∃ p, heap w !! e = Some p ∧
    Delete k w =
      Ok tt match p with
            | PVal _ =>
                {| this := this w; heap := <[e := PNil]> (heap w);
                   trace := trace w ++ [EvPtr e p PNil] |}
            | _ => w
            end.
Proof.
  intros [Hmu Ham Hrd Hd Hex Hms Htr] Hk.
  destruct w as [[mu0 [rm am] d ms] h tr]; cbn in *.
  destruct (Hrd _ _ Hk) as [p Hp]. exists p. split; [done|].
  unfold Delete. prims. rewrite Hk. cbn.
  rewrite (entry_delete_spec _ _ _ _ _ Hp). by destruct p.
Qed.

(** C9.  In a reachable world, for a key [k] that the snapshot maps to
    entry [e], [Delete k] leaves the whole [Map] struct as it is (snapshot,
    dirty map, miss counter, mutex) and performs no lock operation.  If [e]
    held a value its pointer is swapped to nil, and that is the only write;
    otherwise nothing is written at all. *)
Theorem C9_Delete_snapshot_key_frame w k e :
  reachable w →
  m (read (this w)) !! k = Some e →
  ∃ p, heap w !! e = Some p ∧
    Delete k w =
      Ok tt match p with
            | PVal _ =>
                {| this := this w; heap := <[e := PNil]> (heap w);
                   trace := trace w ++ [EvPtr e p PNil] |}
            | _ => w
            end.
Proof. intros Hw. apply Delete_snapshot_key. by apply reachable_wf. Qed.

Lemma C9_witness :
  ∃ p, heap promoted_a !! 0%nat = Some p ∧
    Delete key_a promoted_a =
      Ok tt match p with
            | PVal _ =>
                {| this := this promoted_a; heap := <[0%nat := PNil]> (heap promoted_a);
                   trace := trace promoted_a ++ [EvPtr 0%nat p PNil] |}
            | _ => promoted_a
            end.
Proof.
  apply (C9_Delete_snapshot_key_frame promoted_a key_a 0%nat).
  - apply reachable_after. vm_compute. eauto.
  - vm_compute. reflexivity.
Defined.



(** * Sharing of entries and the map a caller sees *)

Lemma view_lookup w k : view w !! k = contents w k.
Proof.
  unfold view, contents. rewrite lookup_omap.
  destruct (amended (read (this w))).
  - rewrite lookup_union.
    destruct (m (read (this w)) !! k) as [e|] eqn:Hk; cbn.
    + by destruct (default ∅ (dirty (this w)) !! k).
    + destruct (dirty (this w)) as [d|]; cbn; [|done].
      by destruct (d !! k).
  - by destruct (m (read (this w)) !! k).
Qed.

Lemma contents_entry_of w k :
  wf w → contents w k = e ← entry_of w k; value_of (heap w !! e).
Proof.
  intros [_ Ham _ _ _ _ _]. unfold contents, entry_of.
  destruct (m (read (this w)) !! k); [done|]. rewrite Ham.
  by destruct (dirty (this w)).
Qed.

Lemma coherent_dirty_inj w d k1 k2 e :
  coherent w → dirty (this w) = Some d →
  d !! k1 = Some e → d !! k2 = Some e → k1 = k2.
Proof.
  intros [Hinj Hsup] Hd H1 H2. apply (Hinj k1 k2 e); unfold entry_of; rewrite Hd; cbn.
  - destruct (m (read (this w)) !! k1) as [e1|] eqn:Hk; [|done].
    destruct (Hsup _ _ _ Hd Hk) as [?|[? _]]; congruence.
  - destruct (m (read (this w)) !! k2) as [e2|] eqn:Hk; [|done].
    destruct (Hsup _ _ _ Hd Hk) as [?|[? _]]; congruence.
Qed.

Lemma contents_frame mu0 mu' rm am d ms ms' h tr tr' k :
  contents (mkWorld (mkMap mu' (mkReadOnly rm am) d ms') h tr') k =
  contents (mkWorld (mkMap mu0 (mkReadOnly rm am) d ms) h tr) k.
Proof. done. Qed.

Lemma coherent_frame mu0 mu' rm am am' d ms ms' h tr tr' :
  coherent (mkWorld (mkMap mu0 (mkReadOnly rm am) d ms) h tr) →
  coherent (mkWorld (mkMap mu' (mkReadOnly rm am') d ms') h tr').
Proof. intros [Hinj Hsup]. by constructor. Qed.

Lemma T_poke mu' rm am d ms ms' h tr tr' k e p p' :
  let w := mkWorld (mkMap false (mkReadOnly rm am) d ms) h tr in
  let w' := mkWorld (mkMap mu' (mkReadOnly rm am) d ms') (<[e := p']> h) tr' in
  wf w → coherent w → entry_of w k = Some e → h !! e = Some p → p ≠ PExpunged →
  coherent w' ∧ agree_except w w' k.
Proof.
  intros w w' Hwf [Hinj Hsup] He Hp Hne. split.
  - constructor; [exact Hinj|].
    intros d0 k0 e0 Hd Hk. cbn in *. destruct (Hsup _ _ _ Hd Hk) as [?|[? Hx]]; [by left|].
    right. split; [done|]. rewrite list_lookup_insert_ne; [done|]. congruence.
  - intros k' Hk'. unfold contents, entry_of in *. cbn in *.
    destruct (rm !! k') as [e'|] eqn:Hr.
    + rewrite list_lookup_insert_ne; [done|]. intros ->.
      apply Hk', (Hinj k' k e'); [by rewrite Hr|done].
    + destruct am; [|done]. destruct d as [d|]; [|done]. cbn.
      destruct (d !! k') as [e'|] eqn:Hdk; [|done]. cbn.
      rewrite list_lookup_insert_ne; [done|]. intros ->.
      apply Hk', (Hinj k' k e'); [by rewrite Hr|done].
Qed.

Lemma T_unexpunge mu' rm am d ms ms' h tr tr' k e v :
  let w := mkWorld (mkMap false (mkReadOnly rm am) (Some d) ms) h tr in
  let w' := mkWorld (mkMap mu' (mkReadOnly rm am) (Some (<[k := e]> d)) ms')
              (<[e := PVal v]> h) tr' in
  coherent w → rm !! k = Some e → h !! e = Some PExpunged →
  coherent w' ∧ agree_except w w' k.
Proof.
  intros w w' [Hinj Hsup] Hk Hp.
  assert (Hent : ∀ k', entry_of w' k' = entry_of w k').
  { intros k'. unfold entry_of. cbn. destruct (rm !! k') eqn:Hr; [done|].
    rewrite lookup_insert_ne; [done|]. congruence. }
  assert (Hother : ∀ k' e', k' ≠ k → entry_of w k' = Some e' → e' ≠ e).
  { intros k' e' Hne He' ->. apply Hne, (Hinj k' k e); [done|].
    unfold entry_of. cbn. by rewrite Hk. }
  split.
  - constructor.
    + intros k1 k2 e0. rewrite !Hent. apply Hinj.
    + intros d0 k0 e0 [= <-] Hk0. cbn in *.
      destruct (decide (k0 = k)) as [->|Hne].
      * left. rewrite lookup_insert_eq. congruence.
      * rewrite lookup_insert_ne by done.
        destruct (Hsup _ _ _ eq_refl Hk0) as [?|[? Hx]]; [by left|].
        right. split; [done|]. rewrite list_lookup_insert_ne; [done|].
        intros ->. eapply (Hother k0 e0); [done| |done]. unfold entry_of. cbn. by rewrite Hk0.
  - intros k' Hk'. unfold contents. cbn.
    destruct (rm !! k') as [e'|] eqn:Hr.
    + rewrite list_lookup_insert_ne; [done|].
      intros ->. eapply (Hother k' e'); [done| |done]. unfold entry_of. cbn. by rewrite Hr.
    + destruct am; [|done]. cbn. rewrite lookup_insert_ne by done.
      destruct (d !! k') as [e'|] eqn:Hdk; [|done]. cbn.
      rewrite list_lookup_insert_ne; [done|].
      intros ->. eapply (Hother k' e'); [done| |done].
      unfold entry_of. cbn. by rewrite Hr.
Qed.

Lemma T_new_entry mu' rm d ms ms' h tr tr' k v :
  let w := mkWorld (mkMap false (mkReadOnly rm true) (Some d) ms) h tr in
  let w' := mkWorld (mkMap mu' (mkReadOnly rm true) (Some (<[k := length h]> d)) ms')
              (h ++ [PVal v]) tr' in
  wf w → coherent w → rm !! k = None →
  coherent w' ∧ agree_except w w' k.
Proof.
  intros w w' [_ _ Hrd Hd _ _ _] [Hinj Hsup] Hk. cbn in *.
  assert (Hvalid : ∀ k' e', entry_of w k' = Some e' → (e' < length h)%nat).
  { intros k' e'. unfold entry_of. cbn. destruct (rm !! k') as [e0|] eqn:Hr.
    - intros [= <-]. by eapply lookup_lt_is_Some, Hrd.
    - intros Hdk. destruct (Hd _ _ _ eq_refl Hdk) as (p & Hp & _).
      by eapply lookup_lt_Some. }
  assert (Hent : ∀ k', k' ≠ k → entry_of w' k' = entry_of w k').
  { intros k' Hne. unfold entry_of. cbn. destruct (rm !! k'); [done|].
    by rewrite lookup_insert_ne. }
  assert (Hentk : entry_of w' k = Some (length h)).
  { unfold entry_of. cbn. by rewrite Hk, lookup_insert_eq. }
  split.
  - constructor.
    + intros k1 k2 e0 H1 H2.
      destruct (decide (k1 = k)) as [->|Hn1], (decide (k2 = k)) as [->|Hn2]; [done|..].
      * rewrite Hentk in H1. injection H1 as <-. rewrite Hent in H2 by done.
        apply Hvalid in H2. lia.
      * rewrite Hentk in H2. injection H2 as <-. rewrite Hent in H1 by done.
        apply Hvalid in H1. lia.
      * rewrite Hent in H1, H2 by done. by eapply Hinj.
    + intros d0 k0 e0 [= <-] Hk0. cbn in *.
      rewrite lookup_insert_ne by congruence.
      destruct (Hsup _ _ _ eq_refl Hk0) as [?|[? Hx]]; [by left|].
      right. split; [done|]. by apply lookup_app_l_Some.
  - intros k' Hk'. unfold contents. cbn.
    destruct (rm !! k') as [e'|] eqn:Hr.
    + destruct (Hrd _ _ Hr) as [p Hp]. by rewrite (lookup_app_l_Some _ _ _ _ Hp), Hp.
    + rewrite lookup_insert_ne by done.
      destruct (d !! k') as [e'|] eqn:Hdk; [|done]. cbn.
      destruct (Hd _ _ _ eq_refl Hdk) as (p & Hp & _).
      by rewrite (lookup_app_l_Some _ _ _ _ Hp), Hp.
Qed.

Lemma T_materialize mu' rm ms ms' h tr tr' :
  let w := mkWorld (mkMap false (mkReadOnly rm false) None ms) h tr in
  let w' := mkWorld (mkMap mu' (mkReadOnly rm true) (Some (materialize rm h)) ms')
              (expunge_all rm h) tr' in
  wf w → coherent w →
  coherent w' ∧ ∀ k, contents w' k = contents w k.
Proof.
  intros w w' [_ _ Hrd _ _ _ _] [Hinj Hsup]. cbn in *.
  assert (Hent : ∀ k, entry_of w' k = entry_of w k).
  { intros k. unfold entry_of. cbn. destruct (rm !! k) as [e|] eqn:Hr; [done|].
    destruct (materialize rm h !! k) as [e|] eqn:Hm; [|done].
    apply materialize_lookup in Hm as [? _]. congruence. }
  split.
  - constructor.
    + intros k1 k2 e. rewrite !Hent. apply Hinj.
    + intros d k e [= <-] Hk. cbn in *. destruct (Hrd _ _ Hk) as [p Hp].
      assert (Hno : (∀ v, p ≠ PVal v) → materialize rm h !! k = None).
      { intros Hnv. destruct (materialize rm h !! k) as [e'|] eqn:Hm; [|done].
        apply materialize_lookup in Hm as [Hk' [v Hv]].
        exfalso. apply (Hnv v). congruence. }
      rewrite expunge_all_lookup, Hp. destruct p as [| |v].
      * right. split; [by apply Hno|].
        rewrite decide_True; [done|]. apply elem_of_entries. eauto.
      * right. split; [by apply Hno|done].
      * left. apply materialize_lookup. eauto.
  - intros k. unfold contents. cbn. destruct (rm !! k) as [e|] eqn:Hr.
    + rewrite expunge_all_lookup. destruct (h !! e) as [[| |v]|]; try done.
      by case_decide.
    + destruct (materialize rm h !! k) as [e|] eqn:Hm; [|done].
      apply materialize_lookup in Hm as [? _]. congruence.
Qed.

Lemma T_dirty_delete mu' rm d ms ms' h tr tr' k :
  let w := mkWorld (mkMap false (mkReadOnly rm true) (Some d) ms) h tr in
  let w' := mkWorld (mkMap mu' (mkReadOnly rm true) (Some (delete k d)) ms') h tr' in
  coherent w → rm !! k = None →
  coherent w' ∧ agree_except w w' k.
Proof.
  intros w w' [Hinj Hsup] Hk.
  assert (Hent : ∀ k', k' ≠ k → entry_of w' k' = entry_of w k').
  { intros k' Hne. unfold entry_of. cbn. destruct (rm !! k'); [done|].
    by rewrite lookup_delete_ne. }
  assert (Hentk : entry_of w' k = None).
  { unfold entry_of. cbn. by rewrite Hk, lookup_delete_eq. }
  split.
  - constructor.
    + intros k1 k2 e H1 H2.
      destruct (decide (k1 = k)) as [->|Hn1]; [congruence|].
      destruct (decide (k2 = k)) as [->|Hn2]; [congruence|].
      rewrite Hent in H1, H2 by done. by eapply Hinj.
    + intros d0 k0 e0 [= <-] Hk0. cbn in *.
      rewrite lookup_delete_ne by congruence. by apply Hsup.
  - intros k' Hk'. unfold contents. cbn.
    destruct (rm !! k'); [done|]. by rewrite lookup_delete_ne.
Qed.

Lemma T_promote mu' rm d ms ms' h tr tr' :
  let w := mkWorld (mkMap false (mkReadOnly rm true) (Some d) ms) h tr in
  let w' := mkWorld (mkMap mu' (mkReadOnly d false) None ms') h tr' in
  coherent w →
  coherent w' ∧ ∀ k, contents w' k = contents w k.
Proof.
  intros w w' Hcoh. pose proof Hcoh as [Hinj Hsup]. split.
  - constructor; [|done]. intros k1 k2 e. unfold entry_of. cbn.
    destruct (d !! k1) eqn:H1; [|done]. destruct (d !! k2) eqn:H2; [|done].
    intros [= ->] [= ->]. by eapply (coherent_dirty_inj w).
  - intros k. unfold contents. cbn.
    destruct (rm !! k) as [e|] eqn:Hr; [|by destruct (d !! k)].
    destruct (Hsup _ _ _ eq_refl Hr) as [->|[-> Hx]]; [done|].
    cbn in Hx. by rewrite Hx.
Qed.

Lemma Load_coherent w k :
  wf w → coherent w →
  ∃ r w', Load k w = Ok r w' ∧ coherent w'
          ∧ (∀ k', contents w' k' = contents w k') ∧ heap w' = heap w.
Proof.
  intros Hwf Hcoh.
  destruct (m (read (this w)) !! k) as [e|] eqn:Hk.
  - pose proof Hwf as [Hmu Ham Hrd Hd Hex Hms Htr].
    destruct w as [[mu0 [rm am] d ms] h tr]; cbn in *.
    destruct (Hrd _ _ Hk) as [p Hp].
    unfold Load. prims. rewrite Hk. cbn. rewrite (load_spec _ _ _ _ _ Hp).
    do 2 eexists; split; [done|]. by conjs.
  - destruct (dirty (this w)) as [d|] eqn:Hd.
    + rewrite (Load_miss w k d Hwf Hk Hd). cbn.
      destruct w as [[mu0 [rm am] d0 ms] h tr]; cbn in *. subst d0.
      pose proof Hwf as [Hmu Ham _ _ _ _ _]. cbn in *. subst mu0 am.
      case_bool_decide; (do 2 eexists; split; [done|]); cbn.
      * split; [by eapply coherent_frame|done].
      * destruct (T_promote false rm d ms 0 h tr
                    (tr ++ [EvLock; EvMisses (ms + 1); EvRead {| m := d; amended := false |};
                            EvDirty None; EvMisses 0; EvUnlock]) Hcoh) as [? ?].
        done.
    + pose proof Hwf as [Hmu Ham _ _ _ _ _].
      destruct w as [[mu0 [rm am] d ms] h tr]; cbn in *. subst d. cbn in Ham. subst am.
      unfold Load. prims. rewrite Hk. cbn.
      do 2 eexists; split; [done|]. by conjs.
Qed.

Lemma Store_coherent w k v :
  wf w → coherent w →
  ∃ w', Store k v w = Ok tt w' ∧ coherent w' ∧ agree_except w w' k.
Proof.
  intros Hwf Hcoh. pose proof Hwf as [Hmu Ham Hrd Hd Hex Hms Htr].
  destruct w as [[mu0 [rm am] d ms] h tr]; cbn in *. subst mu0.
  unfold Store. prims.
  destruct (rm !! k) as [e|] eqn:Hk; cbn.
  - destruct (Hrd _ _ Hk) as [p Hp]. rewrite (tryStore_spec _ _ _ _ _ _ Hp).
    assert (e < length h)%nat as Hlt by (by eapply lookup_lt_Some).
    destruct (decide (p = PExpunged)) as [->|Hne]; cbn.
    + rewrite Hk. cbn. rewrite Hp. rewrite decide_True by done. cbn.
      pose proof (Hex _ _ Hk Hp) as Hf. destruct d as [d|]; [|done]. cbn.
      rewrite list_lookup_insert_eq by done. cbn.
      eexists; split; [done|]. rewrite list_insert_insert_eq.
      by eapply (T_unexpunge false rm am d ms ms h tr).
    + eexists; split; [done|].
      eapply (T_poke false rm am d ms ms h tr); [done|done| |done|done].
      unfold entry_of. cbn. by rewrite Hk.
  - rewrite Hk. cbn. destruct d as [d|]; cbn in *; subst am; cbn.
    + destruct (d !! k) as [e|] eqn:Hdk; cbn.
      * destruct (Hd _ _ _ eq_refl Hdk) as (p & Hp & Hne). rewrite Hp. cbn.
        eexists; split; [done|].
        eapply (T_poke false rm true (Some d) ms ms h tr); [done|done| |done|done].
        unfold entry_of. cbn. by rewrite Hk.
      * eexists; split; [done|].
        by eapply (T_new_entry false rm d ms ms h tr).
    + destruct (dirtyLocked_spec true rm false ms h (tr ++ [EvLock]) Hrd)
        as (tr' & Htr' & Hok).
      rewrite Htr'. cbn. eexists; split; [done|]. rewrite expunge_all_length.
      destruct (T_materialize false rm ms ms h tr tr Hwf Hcoh) as [Hcoh1 Hag1].
      assert (Hwf1 := wf_materialize rm ms h tr tr Hwf Htr).
      rewrite <- (expunge_all_length rm h).
      edestruct (T_new_entry false rm (materialize rm h) ms ms (expunge_all rm h) tr)
        as [Hcoh2 Hag2]; [exact Hwf1|exact Hcoh1|exact Hk|].
      split; [exact Hcoh2|].
      intros k' Hk'. rewrite <- Hag1. by apply Hag2.
Qed.

Lemma LoadOrStore_coherent w k v :
  wf w → coherent w →
  ∃ r w', LoadOrStore k v w = Ok r w' ∧ coherent w' ∧ agree_except w w' k.
Proof.
  intros Hwf Hcoh. pose proof Hwf as [Hmu Ham Hrd Hd Hex Hms Htr].
  destruct w as [[mu0 [rm am] d ms] h tr]; cbn in *. subst mu0.
  unfold LoadOrStore. prims.
  destruct (rm !! k) as [e|] eqn:Hk; cbn.
  - destruct (Hrd _ _ Hk) as [p Hp]. rewrite (tryLoadOrStore_spec _ _ _ _ _ _ Hp).
    assert (e < length h)%nat as Hlt by (by eapply lookup_lt_Some).
    destruct p as [| |a]; cbn.
    + do 2 eexists; split; [done|].
      eapply (T_poke false rm am d ms ms h tr); [done|done| |done|done].
      unfold entry_of. cbn. by rewrite Hk.
    + rewrite Hk. cbn. rewrite Hp. rewrite decide_True by done. cbn.
      pose proof (Hex _ _ Hk Hp) as Hf. destruct d as [d|]; [|done]. cbn.
      rewrite (tryLoadOrStore_spec _ _ _ _ _ PNil)
        by (by apply list_lookup_insert_eq).
      cbn. do 2 eexists; split; [done|]. rewrite list_insert_insert_eq.
      by eapply (T_unexpunge false rm am d ms ms h tr).
    + do 2 eexists; split; [done|]. split; [done|]. by intros ??.
  - rewrite Hk. cbn. destruct d as [d|]; cbn in *; subst am; cbn.
    + destruct (d !! k) as [e|] eqn:Hdk; cbn.
      * destruct (Hd _ _ _ eq_refl Hdk) as (p & Hp & Hne).
        assert (e < length h)%nat as Hlt by (by eapply lookup_lt_Some).
        rewrite (tryLoadOrStore_spec _ _ _ _ _ _ Hp).
        assert (Hent : entry_of (mkWorld (mkMap false (mkReadOnly rm true) (Some d) ms) h tr) k
                       = Some e).
        { unfold entry_of. cbn. by rewrite Hk. }
        destruct p as [| |a]; [|done|]; cbn.
        -- rewrite missLocked_spec by done. cbn.
           destruct (T_poke false rm true (Some d) ms ms h tr tr k e PNil (PVal v)
                       Hwf Hcoh Hent Hp Hne) as [Hcoh1 Hag1].
           case_bool_decide; cbn; (do 2 eexists; split; [done|]).
           ++ split; [by eapply coherent_frame|]. exact Hag1.
           ++ edestruct (T_promote false rm d ms 0 (<[e:=PVal v]> h) tr) as [Hcoh2 Hag2];
                [exact Hcoh1|].
              split; [exact Hcoh2|]. intros k' Hk'. rewrite Hag2. by apply Hag1.
        -- rewrite missLocked_spec by done. cbn.
           case_bool_decide; cbn; (do 2 eexists; split; [done|]).
           ++ split; [by eapply coherent_frame|]. by intros ??.
           ++ edestruct (T_promote false rm d ms 0 h tr) as [Hcoh2 Hag2]; [exact Hcoh|].
              split; [exact Hcoh2|]. intros k' Hk'. by rewrite Hag2.
      * do 2 eexists; split; [done|].
        by eapply (T_new_entry false rm d ms ms h tr).
    + destruct (dirtyLocked_spec true rm false ms h (tr ++ [EvLock]) Hrd)
        as (tr' & Htr' & Hok).
      rewrite Htr'. cbn. do 2 eexists; split; [done|]. rewrite expunge_all_length.
      destruct (T_materialize false rm ms ms h tr tr Hwf Hcoh) as [Hcoh1 Hag1].
      assert (Hwf1 := wf_materialize rm ms h tr tr Hwf Htr).
      rewrite <- (expunge_all_length rm h).
      edestruct (T_new_entry false rm (materialize rm h) ms ms (expunge_all rm h) tr)
        as [Hcoh2 Hag2]; [exact Hwf1|exact Hcoh1|exact Hk|].
      split; [exact Hcoh2|].
      intros k' Hk'. rewrite <- Hag1. by apply Hag2.
Qed.

Lemma Delete_coherent w k :
  wf w → coherent w →
  ∃ w', Delete k w = Ok tt w' ∧ coherent w' ∧ agree_except w w' k.
Proof.
  intros Hwf Hcoh. pose proof Hwf as [Hmu Ham Hrd Hd Hex Hms Htr].
  destruct w as [[mu0 [rm am] d ms] h tr]; cbn in *. subst mu0.
  unfold Delete. prims.
  destruct (rm !! k) as [e|] eqn:Hk; cbn.
  - destruct (Hrd _ _ Hk) as [p Hp]. rewrite (entry_delete_spec _ _ _ _ _ Hp).
    destruct p as [| |a]; cbn; (eexists; split; [done|]).
    + split; [done|]. by intros ??.
    + split; [done|]. by intros ??.
    + eapply (T_poke false rm am d ms ms h tr); [done|done| |done|done].
      unfold entry_of. cbn. by rewrite Hk.
  - destruct d as [d|]; cbn in *; subst am; cbn; rewrite ?Hk; cbn.
    + eexists; split; [done|]. by eapply (T_dirty_delete false rm d ms ms h tr).
    + eexists; split; [done|]. split; [done|]. by intros ??.
Qed.

Lemma Range_coherent {A} (f : visitor A) a w :
  wf w → coherent w →
  ∃ r w', Range f a w = Ok r w' ∧ coherent w'
          ∧ (∀ k', contents w' k' = contents w k') ∧ heap w' = heap w.
Proof.
  intros Hwf Hcoh. pose proof Hwf as [Hmu Ham Hrd Hd Hex Hms Htr].
  destruct (dirty (this w)) as [d|] eqn:Hds.
  - destruct (Range_amended f a w d Hwf Hds) as (calls & rest & -> & _).
    destruct w as [[mu0 [rm am] d0 ms] h tr]; cbn in *. subst mu0 d0. cbn in Ham. subst am.
    do 2 eexists; split; [done|]. cbn.
    edestruct (T_promote false rm d ms 0 h tr) as [Hcoh2 Hag2]; [exact Hcoh|].
    split; [exact Hcoh2|]. split; [exact Hag2|done].
  - destruct w as [[mu0 [rm am] d0 ms] h tr]; cbn in *. subst mu0 d0. cbn in Ham. subst am.
    unfold Range. prims.
    edestruct (range_loop_spec f (map_to_list rm) a) as (calls & rest & Hrun & _).
    { intros [k e] Hin. apply elem_of_map_to_list in Hin. cbn. eauto. }
    rewrite Hrun. do 2 eexists; split; [done|]. by conjs.
Qed.

Lemma coherent_init : coherent init.
Proof. by constructor. Qed.

Lemma exec_coherent o w :
  wf w → coherent w → ∃ w', exec o w = Ok tt w' ∧ coherent w'.
Proof.
  intros Hwf Hcoh. destruct o as [k|k v|k v|k|A f a]; cbn; unM.
  - destruct (Load_coherent w k Hwf Hcoh) as (r & w' & -> & ? & _). eauto.
  - destruct (Store_coherent w k v Hwf Hcoh) as (w' & -> & ? & _). eauto.
  - destruct (LoadOrStore_coherent w k v Hwf Hcoh) as (r & w' & -> & ? & _). eauto.
  - destruct (Delete_coherent w k Hwf Hcoh) as (w' & -> & ? & _). eauto.
  - destruct (Range_coherent f a w Hwf Hcoh) as (r & w' & -> & ? & _). eauto.
Qed.

Lemma reachable_coherent w : reachable w → coherent w.
Proof.
  induction 1 as [|o w w' Hw IH Hex]; [apply coherent_init|].
  destruct (exec_coherent o w (reachable_wf w Hw) IH) as (w'' & Hw'' & ?). congruence.
Qed.

(** ** The map a caller sees *)

Lemma view_same w w' : (∀ k, contents w' k = contents w k) → view w' = view w.
Proof. intros H. apply map_eq. intros k. by rewrite !view_lookup. Qed.

Lemma view_insert w w' k v :
  agree_except w w' k → contents w' k = Some v → view w' = <[k := v]> (view w).
Proof.
  intros Hag Hk. apply map_eq. intros k'. rewrite view_lookup.
  destruct (decide (k' = k)) as [->|Hne].
  - by rewrite lookup_insert_eq.
  - rewrite lookup_insert_ne by done. rewrite view_lookup. by apply Hag.
Qed.

Lemma view_delete w w' k :
  agree_except w w' k → contents w' k = None → view w' = delete k (view w).
Proof.
  intros Hag Hk. apply map_eq. intros k'. rewrite view_lookup.
  destruct (decide (k' = k)) as [->|Hne].
  - by rewrite lookup_delete_eq.
  - rewrite lookup_delete_ne by done. rewrite view_lookup. by apply Hag.
Qed.

Lemma Load_view w k :
  wf w → coherent w →
  ∃ w', Load k w =
          Ok (match view w !! k with Some v => (v, true) | None => (INil, false) end) w'
        ∧ view w' = view w ∧ heap w' = heap w.
Proof.
  intros Hwf Hcoh.
  destruct (Load_spec w k Hwf) as (w' & Hrun & _).
  destruct (Load_coherent w k Hwf Hcoh) as (r & w'' & Hrun' & _ & Hsame & Hheap).
  rewrite Hrun in Hrun'. injection Hrun' as _ <-.
  exists w'. rewrite view_lookup. split; [done|]. split; [by apply view_same|done].
Qed.

Lemma Store_view w k v :
  wf w → coherent w →
  ∃ w', Store k v w = Ok tt w' ∧ view w' = <[k := v]> (view w).
Proof.
  intros Hwf Hcoh.
  destruct (Store_spec w k v Hwf) as (w' & Hrun & _ & _ & Hk).
  destruct (Store_coherent w k v Hwf Hcoh) as (w'' & Hrun' & _ & Hag).
  rewrite Hrun in Hrun'. injection Hrun' as <-.
  exists w'. split; [done|]. by apply view_insert.
Qed.

Lemma LoadOrStore_view w k v :
  wf w → coherent w →
  ∃ w', LoadOrStore k v w =
          Ok (match view w !! k with Some a => (a, true) | None => (v, false) end) w'
        ∧ view w' = match view w !! k with
                    | Some _ => view w
                    | None => <[k := v]> (view w)
                    end.
Proof.
  intros Hwf Hcoh.
  destruct (LoadOrStore_spec w k v Hwf) as (w' & Hrun & _ & _ & Hk).
  destruct (LoadOrStore_coherent w k v Hwf Hcoh) as (r & w'' & Hrun' & _ & Hag).
  rewrite Hrun in Hrun'. injection Hrun' as _ <-.
  exists w'. rewrite view_lookup. split; [done|].
  destruct (contents w k) as [a|] eqn:Hc; cbn in Hk.
  - rewrite (view_insert w w' k a Hag Hk). apply insert_id. by rewrite view_lookup.
  - by apply view_insert.
Qed.

Lemma Delete_view w k :
  wf w → coherent w →
  ∃ w', Delete k w = Ok tt w' ∧ view w' = delete k (view w).
Proof.
  intros Hwf Hcoh.
  destruct (Delete_spec w k Hwf) as (w' & Hrun & Hwf' & _ & Hgone & _).
  destruct (Delete_coherent w k Hwf Hcoh) as (w'' & Hrun' & _ & Hag).
  rewrite Hrun in Hrun'. injection Hrun' as <-.
  exists w'. split; [done|]. apply view_delete; [done|]. by apply gone_contents.
Qed.







(** * What the methods do to the map a caller sees *)

(** X1.  In a reachable world [Load k] returns the value the map holds for
    [k] with [true], or [(nil, false)] when it holds none, and whatever it
    does internally (counting a miss, promoting the dirty map) the map a
    caller sees and every entry are as before. *)
Theorem X1_Load_reads_the_map w k :
  reachable w →
  ∃ w', Load k w =
          Ok (match view w !! k with Some v => (v, true) | None => (INil, false) end) w'
        ∧ view w' = view w ∧ heap w' = heap w.
Proof.
  intros Hw. apply Load_view; [by apply reachable_wf|by apply reachable_coherent].
Qed.

Lemma X1_witness :
  ∃ w', Load key_b three_dirty =
          Ok (match view three_dirty !! key_b with
              | Some v => (v, true) | None => (INil, false) end) w'
        ∧ view w' = view three_dirty ∧ heap w' = heap three_dirty.
Proof.
  apply (X1_Load_reads_the_map three_dirty key_b).
  apply reachable_after. vm_compute. eauto.
Defined.

(** X2.  In a reachable world [Store k v] returns, and the map a caller
    sees afterwards is the old one with [k] set to [v]: no other key is
    added, lost or changed, on any of the paths of [Store]. *)
Theorem X2_Store_sets_one_key w k v :
  reachable w →
  ∃ w', Store k v w = Ok tt w' ∧ view w' = <[k := v]> (view w).
Proof.
  intros Hw. apply Store_view; [by apply reachable_wf|by apply reachable_coherent].
Qed.

Lemma X2_witness :
  ∃ w', Store key_a (IInt 3) tombstoned_a = Ok tt w'
        ∧ view w' = <[key_a := IInt 3]> (view tombstoned_a).
Proof.
  apply (X2_Store_sets_one_key tombstoned_a key_a (IInt 3)).
  apply reachable_after. vm_compute. eauto.
Defined.

(** X3.  In a reachable world [LoadOrStore k v] returns the value held for
    [k] with [true] and leaves the map a caller sees as it is, or, when
    [k] has no value, returns [(v, false)] and the map is the old one with
    [k] set to [v]. *)
Theorem X3_LoadOrStore_sets_if_absent w k v :
  reachable w →
  ∃ w', LoadOrStore k v w =
          Ok (match view w !! k with Some a => (a, true) | None => (v, false) end) w'
        ∧ view w' = match view w !! k with
                    | Some _ => view w
                    | None => <[k := v]> (view w)
                    end.
Proof.
  intros Hw. apply LoadOrStore_view; [by apply reachable_wf|by apply reachable_coherent].
Qed.

Lemma X3_witness :
  ∃ w', LoadOrStore key_b (IInt 9) three_dirty =
          Ok (match view three_dirty !! key_b with
              | Some a => (a, true) | None => (IInt 9, false) end) w'
        ∧ view w' = match view three_dirty !! key_b with
                    | Some _ => view three_dirty
                    | None => <[key_b := IInt 9]> (view three_dirty)
                    end.
Proof.
  apply (X3_LoadOrStore_sets_if_absent three_dirty key_b (IInt 9)).
  apply reachable_after. vm_compute. eauto.
Defined.

(** X4.  In a reachable world [Delete k] returns, and the map a caller
    sees afterwards is the old one without [k]; every other key keeps its
    value, whether [k] was in the snapshot, in the dirty map only, or in
    neither. *)
Theorem X4_Delete_removes_one_key w k :
  reachable w →
  ∃ w', Delete k w = Ok tt w' ∧ view w' = delete k (view w).
Proof.
  intros Hw. apply Delete_view; [by apply reachable_wf|by apply reachable_coherent].
Qed.

Lemma X4_witness :
  ∃ w', Delete key_a three_dirty = Ok tt w'
        ∧ view w' = delete key_a (view three_dirty).
Proof.
  apply (X4_Delete_removes_one_key three_dirty key_a).
  apply reachable_after. vm_compute. eauto.
Defined.







(** X8.  How the snapshot and the dirty map share entries in a reachable
    world.  Every snapshot key has an entry; while the dirty map exists it
    holds that key with the very same entry, unless the entry is expunged,
    in which case the dirty map does not hold the key; with no dirty map no
    snapshot entry is expunged.  No entry of the dirty map is expunged.
    And no entry serves two keys. *)
Theorem X8_maps_share_entries w :
  reachable w →
  (∀ k e, m (read (this w)) !! k = Some e →
     ∃ p, heap w !! e = Some p ∧
       match dirty (this w) with
       | Some d => if decide (p = PExpunged) then d !! k = None else d !! k = Some e
       | None => p ≠ PExpunged
       end)
  ∧ (∀ d k e, dirty (this w) = Some d → d !! k = Some e →
       ∃ p, heap w !! e = Some p ∧ p ≠ PExpunged)
  ∧ (∀ k1 k2 e, entry_of w k1 = Some e → entry_of w k2 = Some e → k1 = k2).
Proof.
  intros Hw. pose proof (reachable_wf w Hw) as [Hmu Ham Hrd Hd Hex Hms Htr].
  pose proof (reachable_coherent w Hw) as [Hinj Hsup].
  split; [|split; [exact Hd|exact Hinj]].
  intros k e Hk. destruct (Hrd _ _ Hk) as [p Hp]. exists p. split; [done|].
  destruct (dirty (this w)) as [d|] eqn:Hds.
  - destruct (Hsup d k e eq_refl Hk) as [Hdk|[Hdk Hx]].
    + destruct (Hd d k e eq_refl Hdk) as (p' & Hp' & Hne).
      rewrite Hp in Hp'. injection Hp' as <-. by rewrite decide_False.
    + rewrite Hp in Hx. injection Hx as ->. by rewrite decide_True.
  - intros ->. by specialize (Hex _ _ Hk Hp).
Qed.

Lemma X8_witness :
  (∀ k e, m (read (this tombstoned_a)) !! k = Some e →
     ∃ p, heap tombstoned_a !! e = Some p ∧
       match dirty (this tombstoned_a) with
       | Some d => if decide (p = PExpunged) then d !! k = None else d !! k = Some e
       | None => p ≠ PExpunged
       end)
  ∧ (∀ d k e, dirty (this tombstoned_a) = Some d → d !! k = Some e →
       ∃ p, heap tombstoned_a !! e = Some p ∧ p ≠ PExpunged)
  ∧ (∀ k1 k2 e, entry_of tombstoned_a k1 = Some e → entry_of tombstoned_a k2 = Some e →
       k1 = k2).
Proof.
  apply (X8_maps_share_entries tombstoned_a).
  apply reachable_after. vm_compute. eauto.
Defined.

(** X9.  The fast path of [Store].  When the snapshot holds key [k] with
    an entry that is not expunged, [Store k v] swaps the value into that
    entry and returns: it takes no lock, allocates nothing, and leaves the
    snapshot, the dirty map and the miss counter untouched.  This holds in
    any world, reachable or not. *)
Theorem X9_Store_fast_path w k v e p :
  m (read (this w)) !! k = Some e →
  heap w !! e = Some p →
  p ≠ PExpunged →
  Store k v w =
    Ok tt {| this := this w; heap := <[e := PVal v]> (heap w);
             trace := trace w ++ [EvPtr e p (PVal v)] |}.
Proof.
  intros Hk Hp Hne. destruct w as [[mu0 [rm am] d ms] h tr]; cbn in *.
  unfold Store. prims. rewrite Hk. cbn. rewrite (tryStore_spec _ _ _ _ _ _ Hp).
  by rewrite decide_False.
Qed.

Lemma X9_witness :
  Store key_a (IInt 2) promoted_a =
    Ok tt {| this := this promoted_a; heap := <[0%nat := PVal (IInt 2)]> (heap promoted_a);
             trace := trace promoted_a ++ [EvPtr 0%nat (PVal (IInt 1)) (PVal (IInt 2))] |}.
Proof.
  apply (X9_Store_fast_path promoted_a key_a (IInt 2) 0%nat (PVal (IInt 1))).
  - vm_compute. reflexivity.
  - vm_compute. reflexivity.
  - discriminate.
Defined.

(** X10.  The path of [Load] that needs no lock.  In a reachable world,
    when the snapshot holds key [k] or is not amended, [Load k] answers
    from the snapshot and leaves the world exactly as it was: no lock is
    taken, no miss is counted and nothing is written. *)
Theorem X10_Load_without_lock w k :
  reachable w →
  is_Some (m (read (this w)) !! k) ∨ amended (read (this w)) = false →
  Load k w =
    Ok (match view w !! k with Some v => (v, true) | None => (INil, false) end) w.
Proof.
  intros Hw Hfast. pose proof (reachable_wf w Hw) as [Hmu Ham Hrd Hd Hex Hms Htr].
  rewrite view_lookup. unfold contents.
  destruct w as [[mu0 [rm am] d ms] h tr]; cbn in *.
  destruct (rm !! k) as [e|] eqn:Hk.
  - destruct (Hrd _ _ Hk) as [p Hp]. rewrite Hp.
    unfold Load. prims. rewrite Hk. cbn. rewrite (load_spec _ _ _ _ _ Hp).
    by destruct p.
  - destruct Hfast as [[? ?]|Hun]; [done|]. rewrite Hun.
    unfold Load. prims. by rewrite Hk.
Qed.

Lemma X10_witness :
  Load key_a promoted_a =
    Ok (match view promoted_a !! key_a with
        | Some v => (v, true) | None => (INil, false) end) promoted_a.
Proof.
  apply (X10_Load_without_lock promoted_a key_a).
  - apply reachable_after. vm_compute. eauto.
  - left. vm_compute. eauto.
Defined.




(** X13.  On a key the map holds a value for, [LoadOrStore] is [Load]: in
    a reachable world the two calls return the same result and leave the
    same world, so [LoadOrStore] on a key found only in the dirty map
    counts a miss, and may promote the dirty map, just as [Load] does. *)
Theorem X13_LoadOrStore_is_Load_when_present w k v a :
  reachable w →
  view w !! k = Some a →
  LoadOrStore k v w = Load k w.
Proof.
  intros Hw Ha. pose proof (reachable_wf w Hw) as Hwf.
  pose proof Hwf as [Hmu Ham Hrd Hd Hex Hms Htr].
  rewrite view_lookup in Ha. unfold contents in Ha.
  destruct (m (read (this w)) !! k) as [e|] eqn:Hk.
  - destruct w as [[mu0 [rm am] d ms] h tr]; cbn in *.
    destruct (h !! e) as [[| |a']|] eqn:Hp; cbn in Ha; try done.
    unfold LoadOrStore, Load. prims. rewrite Hk. cbn.
    by rewrite (tryLoadOrStore_spec _ _ _ _ _ _ Hp), (load_spec _ _ _ _ _ Hp).
  - destruct (dirty (this w)) as [d|] eqn:Hds.
    2: { by destruct (amended (read (this w))). }
    rewrite (Load_miss w k d Hwf Hk Hds).
    destruct w as [[mu0 [rm am] d0 ms] h tr]; cbn in *. subst mu0 d0 am. cbn in Ha.
    destruct (d !! k) as [e|] eqn:Hdk; [|done]. cbn in Ha.
    destruct (h !! e) as [[| |a']|] eqn:Hp; cbn in Ha; try done.
    unfold LoadOrStore, loaded. prims. rewrite Hk. cbn. rewrite Hk. cbn. rewrite ?Hdk. cbn.
    rewrite (tryLoadOrStore_spec _ _ _ _ _ _ Hp). cbn.
    rewrite missLocked_spec by done. cbn. rewrite Hp. cbn.
    case_bool_decide; cbn; by rewrite <- !app_assoc.
Qed.

Lemma X13_witness :
  LoadOrStore key_c (IInt 9) three_dirty = Load key_c three_dirty.
Proof.
  apply (X13_LoadOrStore_is_Load_when_present three_dirty key_c (IInt 9) (IInt 3)).
  - apply reachable_after. vm_compute. eauto.
  - vm_compute. reflexivity.
Defined.

(** X14.  In a reachable world [Delete k] on a key the snapshot does not
    hold, while a dirty map exists, takes the lock, removes [k] from the
    dirty map and unlocks.  It writes to no entry, counts no miss and
    never promotes the dirty map. *)
Theorem X14_Delete_outside_snapshot w k d :
  reachable w →
  m (read (this w)) !! k = None →
  dirty (this w) = Some d →
  Delete k w =
    Ok tt {| this := {| mu := false; read := read (this w);
                        dirty := Some (delete k d); misses := misses (this w) |};
             heap := heap w;
             trace := trace w ++ [EvLock; EvDirtyDel k; EvUnlock] |}.
Proof.
  intros Hw Hk Hds. pose proof (reachable_wf w Hw) as [Hmu Ham Hrd Hd Hex Hms Htr].
  destruct w as [[mu0 [rm am] d0 ms] h tr]; cbn in *. subst mu0 d0 am.
  unfold Delete. prims. rewrite Hk. cbn. rewrite Hk. cbn.
  by rewrite <- !app_assoc.
Qed.

Lemma X14_witness :
  Delete key_a three_dirty =
    Ok tt {| this := {| mu := false; read := read (this three_dirty);
                        dirty := Some (delete key_a {[ key_a := 0%nat; key_c := 2%nat ]});
                        misses := misses (this three_dirty) |};
             heap := heap three_dirty;
             trace := trace three_dirty ++ [EvLock; EvDirtyDel key_a; EvUnlock] |}.
Proof.
  apply (X14_Delete_outside_snapshot three_dirty key_a {[ key_a := 0%nat; key_c := 2%nat ]}).
  - apply reachable_after. vm_compute. eauto.
  - vm_compute. reflexivity.
  - vm_compute. reflexivity.
Defined.

(** X15.  In a reachable world [Store k v] on a key that neither map holds
    allocates one fresh entry holding [v] and puts it into the dirty map
    only; the snapshot keeps its keys and is marked amended.  If there was
    no dirty map, it is first built from the snapshot: the snapshot keys
    whose entry holds a value, with the same entries, while the snapshot
    entries that were nil become expunged.  No existing entry changes
    otherwise, and the miss counter stays as it is. *)
Theorem X15_Store_new_key w k v :
  reachable w →
  m (read (this w)) !! k = None →
  (∀ d, dirty (this w) = Some d → d !! k = None) →
  ∃ tr',
    Store k v w =
      Ok tt {| this := {| mu := false;
                          read := {| m := m (read (this w)); amended := true |};
                          dirty := Some (<[k := length (heap w)]>
                                           (match dirty (this w) with
                                            | Some d => d
                                            | None => materialize (m (read (this w))) (heap w)
                                            end));
                          misses := misses (this w) |};
               heap := match dirty (this w) with
                       | Some _ => heap w
                       | None => expunge_all (m (read (this w))) (heap w)
                       end ++ [PVal v];
               trace := trace w ++ EvLock :: tr' |}.
Proof.
  intros Hw Hk Hdk. pose proof (reachable_wf w Hw) as [Hmu Ham Hrd Hd Hex Hms Htr].
  destruct w as [[mu0 [rm am] d ms] h tr]; cbn in *. subst mu0 am.
  unfold Store. prims. rewrite Hk. cbn. rewrite Hk. cbn.
  destruct d as [d|]; cbn.
  - rewrite (Hdk d eq_refl). cbn. eexists. by rewrite <- !app_assoc.
  - destruct (dirtyLocked_spec true rm false ms h (tr ++ [EvLock]) Hrd)
      as (tr' & Htr' & _).
    rewrite Htr'. cbn. rewrite expunge_all_length. eexists.
    rewrite <- !app_assoc. cbn. reflexivity.
Qed.

Lemma X15_witness :
  ∃ tr',
    Store key_b (IInt 2) promoted_a =
      Ok tt {| this := {| mu := false;
                          read := {| m := m (read (this promoted_a)); amended := true |};
                          dirty := Some (<[key_b := length (heap promoted_a)]>
                                           (match dirty (this promoted_a) with
                                            | Some d => d
                                            | None => materialize (m (read (this promoted_a)))
                                                        (heap promoted_a)
                                            end));
                          misses := misses (this promoted_a) |};
               heap := match dirty (this promoted_a) with
                       | Some _ => heap promoted_a
                       | None => expunge_all (m (read (this promoted_a))) (heap promoted_a)
                       end ++ [PVal (IInt 2)];
               trace := trace promoted_a ++ EvLock :: tr' |}.
Proof.
  apply (X15_Store_new_key promoted_a key_b (IInt 2)).
  - apply reachable_after. vm_compute. eauto.
  - vm_compute. reflexivity.
  - intros d Hd. vm_compute in Hd. discriminate.
Defined.

(** X16.  In a reachable world [Store k v] on a key found only in the
    dirty map takes the lock, stores [v] into the entry the dirty map
    already holds for [k], and unlocks: no entry is allocated, both maps
    keep their keys and entries, and no miss is counted. *)
Theorem X16_Store_dirty_key_in_place w k v d e :
  reachable w →
  m (read (this w)) !! k = None →
  dirty (this w) = Some d →
  d !! k = Some e →
  ∃ p, heap w !! e = Some p ∧
    Store k v w =
      Ok tt {| this := {| mu := false; read := read (this w);
                          dirty := Some d; misses := misses (this w) |};
               heap := <[e := PVal v]> (heap w);
               trace := trace w ++ [EvLock; EvPtr e p (PVal v); EvUnlock] |}.
Proof.
  intros Hw Hk Hds Hdk. pose proof (reachable_wf w Hw) as [Hmu Ham Hrd Hd Hex Hms Htr].
  destruct w as [[mu0 [rm am] d0 ms] h tr]; cbn in *. subst mu0 d0 am.
  destruct (Hd _ _ _ eq_refl Hdk) as (p & Hp & _). exists p. split; [done|].
  unfold Store. prims. rewrite Hk. cbn. rewrite Hk. cbn. rewrite ?Hdk. cbn. rewrite Hp. cbn.
  by rewrite <- !app_assoc.
Qed.

Lemma X16_witness :
  ∃ p, heap three_dirty !! 2%nat = Some p ∧
    Store key_c (IInt 8) three_dirty =
      Ok tt {| this := {| mu := false; read := read (this three_dirty);
                          dirty := Some {[ key_a := 0%nat; key_c := 2%nat ]};
                          misses := misses (this three_dirty) |};
               heap := <[2%nat := PVal (IInt 8)]> (heap three_dirty);
               trace := trace three_dirty ++ [EvLock; EvPtr 2%nat p (PVal (IInt 8)); EvUnlock] |}.
Proof.
  apply (X16_Store_dirty_key_in_place three_dirty key_c (IInt 8)
           {[ key_a := 0%nat; key_c := 2%nat ]} 2%nat).
  - apply reachable_after. vm_compute. eauto.
  - vm_compute. reflexivity.
  - vm_compute. reflexivity.
  - vm_compute. reflexivity.
Defined.

(** ** The locking discipline *)

Lemma keeps_ret {A} b (a : A) : keeps b b (mret a).
Proof. intros w a' w' H [= _ <-]. done. Qed.

Lemma keeps_bind {A B} b1 b2 b3 (c : M A) (k : A → M B) :
  keeps b1 b2 c → (∀ a, keeps b2 b3 (k a)) → keeps b1 b3 (c ≫= k).
Proof.
  intros Hc Hk w b w' Hw. unM. destruct (c w) as [a w1|] eqn:Hcw; [|done].
  intros Hrun. eapply Hk; [|exact Hrun]. by eapply Hc.
Qed.

Lemma keeps_raise {A} b b' f : keeps b b' (@raise A f).
Proof. by intros w a w' _ ?. Qed.

Lemma discipline_snoc tr ev : discipline (tr ++ [ev]) = step_lock (discipline tr) ev.
Proof. unfold discipline. by rewrite foldl_app. Qed.

Lemma held_is_emit b b' ev f w :
  held_is b w → step_lock (Some b) ev = Some b' → mu (f (this w)) = b' →
  held_is b' (emit ev (with_this f w)).
Proof.
  intros [Hmu Htr] Hstep Hmu'. split; [exact Hmu'|].
  change (discipline (trace w ++ [ev]) = Some b'). by rewrite discipline_snoc, Htr.
Qed.

Lemma keeps_Lock : keeps false true Lock.
Proof.
  intros w a w' H. unfold Lock. rewrite (proj1 H). intros [= _ <-].
  by apply (held_is_emit false).
Qed.

Lemma keeps_Unlock : keeps true false Unlock.
Proof.
  intros w a w' H. unfold Unlock. rewrite (proj1 H). intros [= _ <-].
  by apply (held_is_emit true).
Qed.

Lemma keeps_read_Load b : keeps b b read_Load.
Proof. by intros w a w' H [= _ <-]. Qed.

Lemma keeps_dirty_get b : keeps b b dirty_get.
Proof. by intros w a w' H [= _ <-]. Qed.

Lemma keeps_dirty_lookup b k : keeps b b (dirty_lookup k).
Proof. by intros w a w' H [= _ <-]. Qed.

Lemma keeps_dirty_len b : keeps b b dirty_len.
Proof. by intros w a w' H [= _ <-]. Qed.

Lemma keeps_misses_get b : keeps b b misses_get.
Proof. by intros w a w' H [= _ <-]. Qed.

Lemma keeps_read_Store r : keeps true true (read_Store r).
Proof.
  intros w a w' H. unfold read_Store. intros [= _ <-].
  apply (held_is_emit true); [done|done|apply H].
Qed.

Lemma keeps_dirty_set d : keeps true true (dirty_set d).
Proof.
  intros w a w' H. unfold dirty_set. intros [= _ <-].
  apply (held_is_emit true); [done|done|apply H].
Qed.

Lemma keeps_misses_set n : keeps true true (misses_set n).
Proof.
  intros w a w' H. unfold misses_set. intros [= _ <-].
  apply (held_is_emit true); [done|done|apply H].
Qed.

Lemma keeps_dirty_insert k e : keeps true true (dirty_insert k e).
Proof.
  intros w a w' H. unfold dirty_insert.
  destruct (dirty (this w)); [|done]. intros [= _ <-].
  apply (held_is_emit true); [done|done|apply H].
Qed.

Lemma keeps_dirty_delete k : keeps true true (dirty_delete k).
Proof.
  intros w a w' H. unfold dirty_delete.
  destruct (dirty (this w)); intros [= _ <-]; [|done].
  apply (held_is_emit true); [done|done|apply H].
Qed.

Lemma keeps_newEntry b i : keeps b b (newEntry i).
Proof. by intros w a w' H [= _ <-]. Qed.

Lemma keeps_LoadPointer b e : keeps b b (LoadPointer e).
Proof.
  intros w a w' H. unfold LoadPointer. destruct (heap w !! e); [|done].
  by intros [= _ <-].
Qed.

Lemma held_is_poke b e old new w :
  held_is b w → needs_lock (EvPtr e old new) = false ∨ b = true →
  held_is b (poke e old new w).
Proof.
  intros [Hmu Htr] Hok. split; [done|].
  change (discipline (trace w ++ [EvPtr e old new]) = Some b).
  rewrite discipline_snoc, Htr. unfold step_lock. cbn [mbind option_bind].
  destruct Hok as [Hok| ->]; [by rewrite Hok|by rewrite andb_false_r].
Qed.

Lemma keeps_CompareAndSwapPointer b e old new :
  needs_lock (EvPtr e old new) = false ∨ b = true →
  keeps b b (CompareAndSwapPointer e old new).
Proof.
  intros Hok w a w' H. unfold CompareAndSwapPointer.
  destruct (heap w !! e); [|done]. case_decide; intros [= _ <-]; [|done].
  by apply held_is_poke.
Qed.

Lemma keeps_StorePointer e new : keeps true true (StorePointer e new).
Proof.
  intros w a w' H. unfold StorePointer.
  destruct (heap w !! e); [|done]. intros [= _ <-]. apply held_is_poke; auto.
Qed.

Lemma keeps_load b e : keeps b b (load e).
Proof.
  unfold load. eapply keeps_bind; [apply keeps_LoadPointer|].
  intros []; apply keeps_ret.
Qed.

Lemma keeps_tryStore_loop b n e i : keeps b b (tryStore_loop n e i).
Proof.
  induction n as [|n IH]; cbn [tryStore_loop]; [apply keeps_raise|].
  eapply keeps_bind; [apply keeps_LoadPointer|]. intros p.
  case_decide as Hp; [apply keeps_ret|].
  eapply keeps_bind.
  - apply keeps_CompareAndSwapPointer. left. cbn.
    by rewrite bool_decide_eq_false_2.
  - intros []; [apply keeps_ret|apply IH].
Qed.

Lemma keeps_tryLoadOrStore_loop b n e i : keeps b b (tryLoadOrStore_loop n e i).
Proof.
  induction n as [|n IH]; cbn [tryLoadOrStore_loop]; [apply keeps_raise|].
  eapply keeps_bind; [apply keeps_CompareAndSwapPointer; by left|].
  intros []; [apply keeps_ret|].
  eapply keeps_bind; [apply keeps_LoadPointer|].
  intros []; try apply keeps_ret. apply IH.
Qed.

Lemma keeps_tryLoadOrStore b e i : keeps b b (tryLoadOrStore e i).
Proof.
  unfold tryLoadOrStore. eapply keeps_bind; [apply keeps_LoadPointer|].
  intros []; try apply keeps_ret. apply keeps_tryLoadOrStore_loop.
Qed.

Lemma keeps_delete_loop b n e : keeps b b (delete_loop n e).
Proof.
  induction n as [|n IH]; cbn [delete_loop]; [apply keeps_raise|].
  eapply keeps_bind; [apply keeps_LoadPointer|].
  intros [| |v]; try apply keeps_ret.
  eapply keeps_bind; [apply keeps_CompareAndSwapPointer; by left|].
  intros []; [apply keeps_ret|apply IH].
Qed.

Lemma keeps_tryExpungeLocked_loop n : ∀ e p, keeps true true (tryExpungeLocked_loop n e p).
Proof.
  induction n as [|n IH]; intros e [| |v]; cbn [tryExpungeLocked_loop];
    try apply keeps_ret; [apply keeps_raise|].
  eapply keeps_bind; [apply keeps_CompareAndSwapPointer; by right|].
  intros []; [apply keeps_ret|].
  eapply keeps_bind; [apply keeps_LoadPointer|]. intros p. apply IH.
Qed.

Lemma keeps_tryExpungeLocked e : keeps true true (tryExpungeLocked e).
Proof.
  unfold tryExpungeLocked. eapply keeps_bind; [apply keeps_LoadPointer|].
  intros p. apply keeps_tryExpungeLocked_loop.
Qed.

Lemma keeps_missLocked : keeps true true missLocked.
Proof.
  unfold missLocked.
  eapply keeps_bind; [apply keeps_misses_get|]. intros n.
  eapply keeps_bind; [apply keeps_misses_set|]. intros _.
  eapply keeps_bind; [apply keeps_misses_get|]. intros n'.
  eapply keeps_bind; [apply keeps_dirty_len|]. intros sz.
  case_bool_decide; [apply keeps_ret|].
  eapply keeps_bind; [apply keeps_dirty_get|]. intros d.
  eapply keeps_bind; [apply keeps_read_Store|]. intros _.
  eapply keeps_bind; [apply keeps_dirty_set|]. intros _.
  apply keeps_misses_set.
Qed.

Lemma keeps_dirtyLocked_loop kes : keeps true true (dirtyLocked_loop kes).
Proof.
  induction kes as [|[k e] kes IH]; cbn [dirtyLocked_loop]; [apply keeps_ret|].
  eapply keeps_bind; [apply keeps_tryExpungeLocked|]. intros isx.
  eapply keeps_bind; [|intros _; apply IH].
  destruct isx; [apply keeps_ret|apply keeps_dirty_insert].
Qed.

Lemma keeps_dirtyLocked : keeps true true dirtyLocked.
Proof.
  unfold dirtyLocked.
  eapply keeps_bind; [apply keeps_dirty_get|]. intros d.
  destruct (found d); [apply keeps_ret|].
  eapply keeps_bind; [apply keeps_read_Load|]. intros rd.
  eapply keeps_bind; [apply keeps_dirty_set|]. intros _.
  apply keeps_dirtyLocked_loop.
Qed.

Lemma keeps_range_loop {A} b (f : visitor A) kes : ∀ a, keeps b b (range_loop f kes a).
Proof.
  induction kes as [|[k e] kes IH]; intros a; cbn [range_loop]; [apply keeps_ret|].
  eapply keeps_bind; [apply keeps_load|]. intros [v ok].
  destruct ok; cbn; [|apply IH].
  destruct (f a k v) as [a' go]. destruct go; cbn; [|apply keeps_ret].
  eapply keeps_bind; [apply IH|]. intros [a'' calls]. apply keeps_ret.
Qed.

Ltac kprim :=
  first
    [ apply keeps_ret | apply keeps_raise | apply keeps_Lock | apply keeps_Unlock
    | apply keeps_read_Load | apply keeps_dirty_get | apply keeps_dirty_lookup
    | apply keeps_dirty_len | apply keeps_misses_get | apply keeps_read_Store
    | apply keeps_dirty_set | apply keeps_misses_set | apply keeps_dirty_insert
    | apply keeps_dirty_delete | apply keeps_newEntry | apply keeps_load
    | apply keeps_tryStore_loop | apply keeps_tryLoadOrStore | apply keeps_delete_loop
    | apply keeps_missLocked | apply keeps_dirtyLocked | apply keeps_range_loop
    | apply keeps_StorePointer
    | apply keeps_CompareAndSwapPointer; by right ].

Ltac kp :=
  repeat first
    [ kprim
    | match goal with
      | |- keeps _ _ (match ?x with _ => _ end ≫= _) => destruct x
      | |- keeps _ _ (match ?x with _ => _ end) => destruct x
      end
    | eapply keeps_bind; [|intros ?] ].

Lemma keeps_Load k : keeps false false (Load k).
Proof. unfold Load. kp. Qed.

Lemma keeps_Store k v : keeps false false (Store k v).
Proof. unfold Store, unexpungeLocked, storeLocked. kp. Qed.

Lemma keeps_LoadOrStore k v : keeps false false (LoadOrStore k v).
Proof. unfold LoadOrStore, unexpungeLocked. kp. Qed.

Lemma keeps_Delete k : keeps false false (Delete k).
Proof. unfold Delete, entry_delete. kp. Qed.

Lemma keeps_Range {A} (f : visitor A) a : keeps false false (Range f a).
Proof. unfold Range. kp. Qed.

Lemma keeps_exec o : keeps false false (exec o).
Proof.
  destruct o as [k|k v|k v|k|A f a]; cbn [exec].
  - eapply keeps_bind; [apply keeps_Load|intros ?; apply keeps_ret].
  - apply keeps_Store.
  - eapply keeps_bind; [apply keeps_LoadOrStore|intros ?; apply keeps_ret].
  - apply keeps_Delete.
  - eapply keeps_bind; [apply keeps_Range|intros ?; apply keeps_ret].
Qed.

Lemma reachable_discipline w : reachable w → held_is false w.
Proof.
  induction 1 as [|o w w' _ IH Hex]; [done|]. by eapply keeps_exec.
Qed.

(** X17.  The locking discipline.  In the history of a reachable world
    [Lock] and [Unlock] alternate, starting with [Lock]; every write to
    [m.read], [m.dirty] or [m.misses], and every pointer write that takes
    an entry to or from [expunged], happens between a [Lock] and the
    [Unlock] that follows it; and the mutex is free when a call has
    returned. *)
Theorem X17_lock_discipline w :
  reachable w → discipline (trace w) = Some false ∧ mu (this w) = false.
Proof. intros Hw. by destruct (reachable_discipline w Hw). Qed.

Lemma X17_witness :
  discipline (trace tombstoned_a) = Some false ∧ mu (this tombstoned_a) = false.
Proof.
  apply (X17_lock_discipline tombstoned_a).
  apply reachable_after. vm_compute. eauto.
Defined.

End SyncMap.
